(** * input.hpp: console input acquisition and validation

    A shallow embedding of the header [input.hpp] (namespace [in]) and the
    properties of its raw reader, line editor, validation loop and check
    combinators.

    Conventions
    - [char] is an 8-bit [ascii]; [std::string] is a [list ascii].
    - The console is explicit state ([World]): the terminal attributes of
      file descriptor 0, the pending bytes of standard input, the failure
      flag of [std::cin], and what has been written to standard output and
      standard error so far.
    - A [Check] either returns normally or throws [InvalidInputException];
      it is a function from the candidate to an [outcome].
    - Loops that may run forever ([basic_input], [validate]) take a bound on
      the number of iterations and report [Pending] when it is used up.
    - [std::regex] (ECMAScript grammar) is modelled by a parser and a matcher
      for the part of the grammar that the patterns assembled in this header
      fall in.
    - The numeric kinds of [numeric] and [range] are a class; its instances
      here are [int] and [double], the latter with the binary64 numbers and
      comparisons of the standard library's SpecFloat. *)

From Stdlib Require Import List Ascii String ZArith NArith Lia Bool Arith.
From Stdlib Require Import Floats.SpecFloat.
Import ListNotations.

Set Implicit Arguments.

(** ** Characters and strings *)

Definition cstring : Type := list ascii.

(** A string literal as a [std::string]. *)
Definition lit (s : string) : cstring := list_ascii_of_string s.

(** [std::string::c_str] read as a C string: the characters before the
    first NUL. *)
Fixpoint c_str (s : cstring) : cstring :=
  match s with
  | [] => []
  | c :: rest => if (c =? "000")%char then [] else c :: c_str rest
  end.

Definition code (c : ascii) : N := N_of_ascii c.

(** Conversion of an [int] to [char], as in [char input = getchar();]. *)
Definition char_of_int (z : Z) : ascii := ascii_of_N (Z.to_N (z mod 256)).

Definition between (lo hi c : ascii) : bool :=
  ((code lo <=? code c) && (code c <=? code hi))%N.

(** [toupper] in the "C" locale. *)
Definition toupper (c : ascii) : ascii :=
  if between "a" "z" c then ascii_of_N (code c - 32) else c.

Definition isdigit (c : ascii) : bool := between "0" "9" c.

(** [isspace] in the "C" locale: space, \t, \n, \v, \f, \r. *)
Definition isspace (c : ascii) : bool :=
  (c =? " ")%char || between "009" "013" c.

Definition digit_value (c : ascii) : N := (code c - code "0")%N.

Definition digit_char (d : N) : ascii := ascii_of_N (code "0" + d).

(** [std::to_string] on an unsigned value: its decimal digits, most
    significant first, no leading zero. [digits_lsf] produces them least
    significant first; [bound] limits the number of digits. *)
Fixpoint digits_lsf (bound : nat) (n : N) : cstring :=
  match bound with
  | O => []
  | S bound' =>
      digit_char (n mod 10) ::
      (if (n / 10 =? 0)%N then [] else digits_lsf bound' (n / 10))
  end.

Definition to_string (n : N) : cstring :=
  rev (digits_lsf (S (N.to_nat (N.log2 n))) n).

(** A run of decimal digits read from the front of [s], accumulated from
    [acc]; returns the value and the unread rest. *)
Fixpoint number (acc : N) (s : cstring) : N * cstring :=
  match s with
  | c :: rest =>
      if isdigit c then number (10 * acc + digit_value c) rest
      else (acc, s)
  | [] => (acc, s)
  end.

(** ** std::regex, ECMAScript grammar *)

Module regex.

(** Members of a bracket expression. *)
Inductive class_atom : Type :=
| One (c : ascii)
| Span (lo hi : ascii)
| Digit (complemented : bool)
| Word (complemented : bool)
| Space (complemented : bool).

(** Atoms that consume exactly one character. *)
Inductive atom : Type :=
| Dot
| Chr (c : ascii)
| Bracket (negated : bool) (members : list class_atom).

(** A pattern is a sequence of assertions and quantified atoms. *)
Inductive term : Type :=
| Bol
| Eol
| Rep (a : atom) (lo : N) (hi : option N).

Definition pattern : Type := list term.

(** Why a pattern string yields no [std::regex]: the [std::regex_error]
    codes, and [outside_fragment] for syntax this model does not interpret
    (groups, alternation, back-references, look-ahead, word boundaries,
    lazy quantifiers, POSIX classes, numeric escapes). *)
Inductive failure : Type :=
| error_escape | error_brack | error_brace | error_badbrace
| error_range | error_badrepeat | outside_fragment.

Inductive try (A : Type) : Type :=
| Ok (a : A)
| Throw (f : failure).
Arguments Throw {A} f.

Definition bind {A B} (x : try A) (k : A -> try B) : try B :=
  match x with
  | Ok a => k a
  | Throw f => Throw f
  end.

Definition map_try {A B} (g : A -> B) (x : try A) : try B :=
  bind x (fun a => Ok (g a)).

(** *** Matching *)

Definition line_terminator (c : ascii) : bool :=
  ((c =? "010") || (c =? "013"))%char.

Definition word_char (c : ascii) : bool :=
  between "a" "z" c || between "A" "Z" c || isdigit c || (c =? "_")%char.

Definition member (m : class_atom) (c : ascii) : bool :=
  match m with
  | One x => (c =? x)%char
  | Span lo hi => between lo hi c
  | Digit neg => xorb neg (isdigit c)
  | Word neg => xorb neg (word_char c)
  | Space neg => xorb neg (isspace c)
  end.

Definition admits (a : atom) (c : ascii) : bool :=
  match a with
  | Dot => negb (line_terminator c)
  | Chr x => (c =? x)%char
  | Bracket neg ms => xorb neg (existsb (fun m => member m c) ms)
  end.

Definition more (hi : option N) : bool :=
  match hi with
  | None => true
  | Some h => (0 <? h)%N
  end.

(** The suffixes of [s] left after [a] has consumed a run of [k]
    characters, for every [k] between [lo] and [hi]. *)
Fixpoint tails (a : atom) (lo : N) (hi : option N) (s : cstring)
  : list cstring :=
  (if (lo =? 0)%N then [s] else []) ++
  match s with
  | [] => []
  | c :: s' =>
      if admits a c && more hi
      then tails a (N.pred lo) (option_map N.pred hi) s'
      else []
  end.

Definition null (s : cstring) : bool :=
  match s with [] => true | _ => false end.

(** [accepts p at_start s]: the whole of [s] is matched by [p];
    [at_start] tells whether [s] begins at the first position of the
    subject. Without the multiline option ^ holds at the first position
    only and $ at the end only. *)
Fixpoint accepts (p : pattern) (at_start : bool) (s : cstring) : bool :=
  match p with
  | [] => null s
  | Bol :: p' => at_start && accepts p' at_start s
  | Eol :: p' => null s && accepts p' at_start s
  | Rep a lo hi :: p' =>
      existsb
        (fun r => accepts p' (at_start && (List.length r =? List.length s)) r)
        (tails a lo hi s)
  end.

(** [std::regex_match]: the entire subject must match. *)
Definition regex_match (s : cstring) (p : pattern) : bool :=
  accepts p true s.

(** *** Parsing *)

Definition one_of (set : string) (c : ascii) : bool :=
  existsb (fun x => (c =? x)%char) (lit set).

(** Escapes that stand for themselves. *)
Definition identity_escape (e : ascii) : bool :=
  one_of "^$\.*+?()[]{}|-/" e.

Definition control_escape (e : ascii) : option ascii :=
  if (e =? "t")%char then Some "009"%char
  else if (e =? "n")%char then Some "010"%char
  else if (e =? "v")%char then Some "011"%char
  else if (e =? "f")%char then Some "012"%char
  else if (e =? "r")%char then Some "013"%char
  else None.

Definition class_escape (e : ascii) : option class_atom :=
  if (e =? "d")%char then Some (Digit false)
  else if (e =? "D")%char then Some (Digit true)
  else if (e =? "w")%char then Some (Word false)
  else if (e =? "W")%char then Some (Word true)
  else if (e =? "s")%char then Some (Space false)
  else if (e =? "S")%char then Some (Space true)
  else None.

Definition escape_in_class (e : ascii) : try class_atom :=
  match class_escape e with
  | Some m => Ok m
  | None =>
      match control_escape e with
      | Some c => Ok (One c)
      | None => if identity_escape e then Ok (One e)
                else Throw outside_fragment
      end
  end.

(** A dash that would start a range after a class escape. *)
Definition dash_then_more (s : cstring) : bool :=
  match s with
  | d :: x :: _ => (d =? "-")%char && negb (x =? "]")%char
  | _ => false
  end.

(** The members of a bracket expression, up to and including the closing
    bracket; returns them with the rest of the pattern. The order of the
    bounds of a range is that of [char], which is signed or unsigned
    according to the platform: a range with a bound outside ASCII is not
    interpreted. *)
Fixpoint class_atoms (s : cstring) : try (list class_atom * cstring) :=
  match s with
  | [] => Throw error_brack
  | c :: rest =>
      if (c =? "]")%char then Ok ([], rest)
      else if (c =? "[")%char then Throw outside_fragment
      else if (c =? "\")%char then
        match rest with
        | [] => Throw error_escape
        | e :: rest' =>
            if dash_then_more rest' then Throw outside_fragment
            else
              bind (escape_in_class e) (fun m =>
              map_try (fun r => (m :: fst r, snd r)) (class_atoms rest'))
        end
      else
        match rest with
        | d :: hi :: rest' =>
            if (d =? "-")%char then
              if (hi =? "]")%char then Ok ([One c; One d], rest')
              else if one_of "\[" hi then Throw outside_fragment
              else if ((127 <? code c) || (127 <? code hi))%N
                   then Throw outside_fragment
              else if (code hi <? code c)%N then Throw error_range
              else map_try (fun r => (Span c hi :: fst r, snd r))
                           (class_atoms rest')
            else map_try (fun r => (One c :: fst r, snd r))
                         (class_atoms rest)
        | _ => map_try (fun r => (One c :: fst r, snd r)) (class_atoms rest)
        end
  end.

Definition bracket (s : cstring) : try (atom * cstring) :=
  match s with
  | c :: rest =>
      if (c =? "^")%char
      then map_try (fun r => (Bracket true (fst r), snd r)) (class_atoms rest)
      else map_try (fun r => (Bracket false (fst r), snd r)) (class_atoms s)
  | [] => Throw error_brack
  end.

Definition escape (s : cstring) : try (atom * cstring) :=
  match s with
  | [] => Throw error_escape
  | e :: rest =>
      match class_escape e with
      | Some m => Ok (Bracket false [m], rest)
      | None =>
          match control_escape e with
          | Some c => Ok (Chr c, rest)
          | None => if identity_escape e then Ok (Chr e, rest)
                    else Throw outside_fragment
          end
      end
  end.

(** Repetition counts are interpreted up to this limit; beyond it
    implementations differ (some run out of their budget of automaton states
    and throw, some wrap the count). *)
Definition count_limit : N := 65535.

Definition within_limit (r : N * option N * cstring)
  : try (N * option N * cstring) :=
  let '(n, hi, _) := r in
  if ((count_limit <? n)
      || match hi with Some m => count_limit <? m | None => false end)%N
  then Throw outside_fragment
  else Ok r.

(** The text after an opening brace: n}  n,}  n,m} *)
Definition braces_syntax (s : cstring) : try (N * option N * cstring) :=
  match s with
  | c :: _ =>
      if isdigit c then
        let (n, s1) := number 0 s in
        match s1 with
        | x :: s2 =>
            if (x =? "}")%char then Ok (n, Some n, s2)
            else if (x =? ",")%char then
              match s2 with
              | y :: s3 =>
                  if (y =? "}")%char then Ok (n, None, s3)
                  else if isdigit y then
                    let (m, s4) := number 0 s2 in
                    match s4 with
                    | z :: s5 =>
                        if (z =? "}")%char
                        then if (m <? n)%N then Throw error_badbrace
                             else Ok (n, Some m, s5)
                        else Throw error_badbrace
                    | [] => Throw error_brace
                    end
                  else Throw error_badbrace
              | [] => Throw error_brace
              end
            else Throw error_badbrace
        | [] => Throw error_brace
        end
      else Throw error_badbrace
  | [] => Throw error_badbrace
  end.

Definition braces (s : cstring) : try (N * option N * cstring) :=
  bind (braces_syntax s) within_limit.

(** The quantifier, if any, that follows an atom. *)
Definition quantifier (s : cstring) : try (N * option N * cstring) :=
  let q :=
    match s with
    | c :: rest =>
        if (c =? "*")%char then Ok (0%N, None, rest)
        else if (c =? "+")%char then Ok (1%N, None, rest)
        else if (c =? "?")%char then Ok (0%N, Some 1%N, rest)
        else if (c =? "{")%char then braces rest
        else Ok (1%N, Some 1%N, s)
    | [] => Ok (1%N, Some 1%N, s)
    end in
  bind q (fun r =>
    match s, snd r with
    | c :: _, x :: _ =>
        if one_of "*+?{" c && (x =? "?")%char then Throw outside_fragment
        else Ok r
    | _, _ => Ok r
    end).

Definition single (c : ascii) (rest : cstring) : try (atom * cstring) :=
  if (c =? ".")%char then Ok (Dot, rest)
  else if (c =? "[")%char then bracket rest
  else if (c =? "\")%char then escape rest
  else Ok (Chr c, rest).

(** The terms of a pattern; [bound] limits the number of terms. *)
Fixpoint terms (bound : nat) (s : cstring) : try pattern :=
  match bound with
  | O => Throw outside_fragment
  | S bound' =>
      match s with
      | [] => Ok []
      | c :: rest =>
          if (c =? "^")%char then map_try (cons Bol) (terms bound' rest)
          else if (c =? "$")%char then map_try (cons Eol) (terms bound' rest)
          else if one_of "*+?{" c then Throw error_badrepeat
          else if one_of "()|]}" c then Throw outside_fragment
          else
            bind (single c rest) (fun a =>
            bind (quantifier (snd a)) (fun q =>
            map_try (cons (Rep (fst a) (fst (fst q)) (snd (fst q))))
                    (terms bound' (snd q))))
      end
  end.

(** Construction of a [std::regex] from its source text. *)
Definition compile (source : cstring) : try pattern :=
  terms (S (List.length source)) source.

End regex.


(** ** The console *)

(** [struct termios]: the four flag words. *)
Record termios : Type := {
  c_iflag : Z;
  c_oflag : Z;
  c_cflag : Z;
  c_lflag : Z
}.

(** Local-mode bits of <termios.h> on Linux. *)
Definition ICANON : Z := 2.
Definition ECHO : Z := 8.

(** [tcflag_t] is a 32-bit unsigned integer. *)
Definition tcflag_t (z : Z) : Z := z mod 2 ^ 32.

Definition with_lflag (t : termios) (l : Z) : termios :=
  {| c_iflag := c_iflag t; c_oflag := c_oflag t; c_cflag := c_cflag t;
     c_lflag := l |}.

(** [EOF] of <cstdio>. *)
Definition EOF : Z := (-1)%Z.

Record World : Type := {
  terminal : termios;   (* attributes of the terminal on descriptor 0 *)
  cin_fail : bool;      (* std::cin has failbit or badbit set *)
  stdin : cstring;      (* bytes not yet read; empty means end of input *)
  stdout : cstring;     (* everything written to std::cout *)
  stderr : cstring      (* everything written to std::cerr *)
}.

Definition tcgetattr (w : World) : termios := terminal w.

Definition tcsetattr (t : termios) (w : World) : World :=
  {| terminal := t; cin_fail := cin_fail w; stdin := stdin w;
     stdout := stdout w; stderr := stderr w |}.

Definition cout (s : cstring) (w : World) : World :=
  {| terminal := terminal w; cin_fail := cin_fail w; stdin := stdin w;
     stdout := stdout w ++ s; stderr := stderr w |}.

Definition cerr (s : cstring) (w : World) : World :=
  {| terminal := terminal w; cin_fail := cin_fail w; stdin := stdin w;
     stdout := stdout w; stderr := stderr w ++ s |}.

(** [std::endl]: a newline (and a flush). *)
Definition endl : cstring := ["010"%char].

(** The input left after discarding up to and including the first newline. *)
Fixpoint after_newline (s : cstring) : cstring :=
  match s with
  | [] => []
  | c :: rest => if (c =? "010")%char then rest else after_newline rest
  end.

(** [std::cin.clear(); std::cin.ignore(max, '\n');] std::cin shares the
    buffer of stdin; reaching end of input while ignoring sets eofbit only. *)
Definition cin_clear_ignore (w : World) : World :=
  {| terminal := terminal w; cin_fail := false;
     stdin := after_newline (stdin w);
     stdout := stdout w; stderr := stderr w |}.

(** [getchar()]: the next byte as an [int], or [EOF]. *)
Definition getchar (w : World) : Z * World :=
  match stdin w with
  | [] => (EOF, w)
  | c :: rest =>
      (Z.of_N (code c),
       {| terminal := terminal w; cin_fail := cin_fail w; stdin := rest;
          stdout := stdout w; stderr := stderr w |})
  end.

(** What a call that may not come back produced: its value and the console
    it left, or the console reached when the iteration bound ran out. *)
Inductive result (A : Type) : Type :=
| Returned (a : A) (w : World)
| Pending (w : World).
Arguments Pending {A} w.

Definition world_of {A} (r : result A) : World :=
  match r with
  | Returned _ w => w
  | Pending w => w
  end.

Definition InputFunction : Type := World -> result cstring.

(** ** Checks *)

Inductive outcome : Type :=
| Accept                          (* the check returned *)
| InvalidInput (what : cstring).  (* it threw InvalidInputException *)

Definition Check : Type := cstring -> outcome.

Definition INVALID_INPUT_PROMPT : cstring := lit "Invalid Input".
Definition INPUT_MASK : ascii := "*".

Inductive Style : Type := Basic | Masked | Instant.

(** ** namespace _infuncs *)

Module _infuncs.

(** The Linux branch. *)
Definition getch (w : World) : ascii * World :=
  let terminal_flags := tcgetattr w in
  let terminal_flags :=
    with_lflag terminal_flags
      (tcflag_t (Z.land (c_lflag terminal_flags) (Z.lnot ICANON))) in
  let terminal_flags :=
    with_lflag terminal_flags
      (tcflag_t (Z.land (c_lflag terminal_flags) (Z.lnot ECHO))) in
  let w := tcsetattr terminal_flags w in
  let w := if cin_fail w then cin_clear_ignore w else w in
  let (input, w) := getchar w in
  let terminal_flags :=
    with_lflag terminal_flags
      (tcflag_t (Z.lor (c_lflag terminal_flags) ICANON)) in
  let terminal_flags :=
    with_lflag terminal_flags
      (tcflag_t (Z.lor (c_lflag terminal_flags) ECHO)) in
  let w := tcsetattr terminal_flags w in
  (char_of_int input, w).

End _infuncs.

(** ** namespace infuncs *)

Module infuncs.

Definition NEWLINE : ascii := "010".
Definition BACKSPACE : ascii := "127".
Definition CURSOR_BACK : ascii := "008".

Definition pop_back (s : cstring) : cstring := removelast s.

(** One pass through the body of the do-while loop: the character read,
    the accumulator and the console after it. *)
Definition keystroke (mask : option ascii) (user_input : cstring)
    (w : World) : ascii * cstring * World :=
  let (character, w) := _infuncs.getch w in
  if (character =? BACKSPACE)%char then
    match user_input with
    | _ :: _ =>
        (character, pop_back user_input,
         cout [CURSOR_BACK; " "%char; CURSOR_BACK] w)
    | [] => (character, user_input, w)
    end
  else if negb (character =? NEWLINE)%char then
    (character, user_input ++ [character],
     cout [match mask with Some m => m | None => character end] w)
  else (character, user_input, w).

Fixpoint basic_input_loop (bound : nat) (mask : option ascii)
    (user_input : cstring) (w : World) : result cstring :=
  match bound with
  | O => Pending w
  | S bound' =>
      let '(character, user_input, w) := keystroke mask user_input w in
      if negb (character =? NEWLINE)%char
      then basic_input_loop bound' mask user_input w
      else Returned user_input w
  end.

Definition basic_input (bound : nat) (mask : option ascii) : InputFunction :=
  fun w => basic_input_loop bound mask [] w.

Definition instant_input : InputFunction :=
  fun w =>
    let (character, w) := _infuncs.getch w in
    let user_input := [] ++ [character] in
    Returned user_input (cout [toupper character] w).

End infuncs.

(** ** validate, input, get, ask *)

(** The for loop over the checks: the message of the first check that
    throws, if any; the checks after it are not called. *)
Fixpoint first_failure (checks : list Check) (user_input : cstring)
  : option cstring :=
  match checks with
  | [] => None
  | check :: checks' =>
      match check user_input with
      | Accept => first_failure checks' user_input
      | InvalidInput what => Some what
      end
  end.

Fixpoint validate_loop (bound : nat) (input_function : InputFunction)
    (checks : list Check) (w : World) : result cstring :=
  match bound with
  | O => Pending w
  | S bound' =>
      match input_function w with
      | Pending w => Pending w
      | Returned user_input w =>
          let w := cout endl w in
          match first_failure checks user_input with
          | None => Returned user_input w
          | Some what =>
              validate_loop bound' input_function checks
                            (cerr (what ++ endl) w)
          end
      end
  end.

Definition validate (bound : nat) (input_function : InputFunction)
    (checks : list Check) (w : World) : result cstring :=
  match checks with
  | _ :: _ => validate_loop bound input_function checks w
  | [] =>
      match input_function w with
      | Pending w => Pending w
      | Returned user_input w => Returned user_input (cout endl w)
      end
  end.

Definition input (bound : nat) (style : Style) (prompt_once : bool)
    (message : cstring) (checks : list Check) (w : World) : result cstring :=
  let input_function :=
    match style with
    | Basic => infuncs.basic_input bound None
    | Masked => infuncs.basic_input bound (Some INPUT_MASK)
    | Instant => infuncs.instant_input
    end in
  if prompt_once
  then validate bound input_function checks (cout message w)
  else validate bound (fun w => input_function (cout message w)) checks w.

Definition get (bound : nat) (style : Style) (prompt_once : bool)
    (message : cstring) (checks : list Check) (w : World) : result cstring :=
  input bound style prompt_once (message ++ lit ": ") checks w.

Definition ask (bound : nat) (style : Style) (prompt_once : bool)
    (question : cstring) (checks : list Check) (w : World) : result cstring :=
  input bound style prompt_once (question ++ lit "?" ++ endl) checks w.

(** ** namespace checks *)

(** The numeric kinds [T] that [numeric<T>] and [range<T>] are instantiated
    at: those for which std::is_arithmetic<T> holds, so that the
    std::invalid_argument branch of [numeric] is not taken. A kind fixes the
    two traits the pattern depends on, the ordering [<] of its values, and
    [stream >> value] on a fresh std::stringstream ([None] when the
    extraction leaves the stream in a failed state). *)
Class Arithmetic (T : Type) : Type := {
  is_floating_point : bool;
  is_signed : bool;
  less : T -> T -> bool;
  extract : cstring -> option T
}.

Definition INT_MIN : Z := (-2147483648)%Z.
Definition INT_MAX : Z := 2147483647%Z.

Fixpoint skipws (s : cstring) : cstring :=
  match s with
  | c :: rest => if isspace c then skipws rest else s
  | [] => []
  end.

(** [stream >> value] for [int], default flags: leading white space is
    skipped, then an optional sign and a non-empty run of decimal digits are
    read; a value that does not fit sets failbit. *)
Definition extract_int (s : cstring) : option Z :=
  let s := skipws s in
  let '(negative, s) :=
    match s with
    | c :: rest =>
        if (c =? "-")%char then (true, rest)
        else if (c =? "+")%char then (false, rest)
        else (false, s)
    | [] => (false, s)
    end in
  match s with
  | c :: _ =>
      if isdigit c then
        let magnitude := Z.of_N (fst (number 0 s)) in
        let value := if negative then (- magnitude)%Z else magnitude in
        if ((INT_MIN <=? value) && (value <=? INT_MAX))%Z
        then Some value else None
      else None
  | [] => None
  end.

Definition int : Type := Z.

#[export] Instance int_arithmetic : Arithmetic int := {|
  is_floating_point := false;
  is_signed := true;
  less := Z.ltb;
  extract := extract_int
|}.

(** The kind [double]: IEEE 754 binary64, with the comparison of the
    standard library's specification of floating-point numbers. *)
Definition double : Type := spec_float.

(** The leading run of decimal digits of [s] and what follows it. *)
Fixpoint digit_run (s : cstring) : cstring * cstring :=
  match s with
  | c :: rest =>
      if isdigit c
      then let (ds, rest') := digit_run rest in (c :: ds, rest')
      else ([], s)
  | [] => ([], [])
  end.

Definition take_sign (s : cstring) : bool * cstring :=
  match s with
  | c :: rest =>
      if (c =? "-")%char then (true, rest)
      else if (c =? "+")%char then (false, rest)
      else (false, s)
  | [] => (false, s)
  end.

(** The field that [stream >> value] reads for a floating kind: white
    space, an optional sign, digits with an optional decimal point, and an
    optional exponent. The result is the sign, the digits as an integer and
    the power of ten that scales it; [None] when there is no digit or when
    an exponent is begun and left without digits. *)
Definition parse_decimal (s : cstring) : option (bool * N * Z) :=
  let '(negative, s) := take_sign (skipws s) in
  let '(whole, s) := digit_run s in
  let '(fraction, s) :=
    match s with
    | c :: rest => if (c =? ".")%char then digit_run rest else ([], s)
    | [] => ([], s)
    end in
  match whole ++ fraction with
  | [] => None
  | mantissa =>
      let scale := (- Z.of_nat (List.length fraction))%Z in
      let value := fst (number 0 mantissa) in
      match s with
      | c :: rest =>
          if ((c =? "e") || (c =? "E"))%char then
            let '(down, rest) := take_sign rest in
            match digit_run rest with
            | ([], _) => None
            | (ds, _) =>
                let e := Z.of_N (fst (number 0 ds)) in
                Some (negative, value,
                      ((if down then (- e) else e) + scale)%Z)
            end
          else Some (negative, value, scale)
      | [] => Some (negative, value, scale)
      end
  end.

(** The binary64 number nearest to n * 10^e (ties to even), as [strtod]
    gives it. *)
Definition decimal_to_double (negative : bool) (n : N) (e : Z) : double :=
  match n with
  | N0 => S754_zero negative
  | Npos m =>
      match e with
      | Zneg k => SFdiv 53 1024 (S754_finite negative m 0)
                                (S754_finite false (Pos.pow 10 k) 0)
      | Zpos k => SFdiv 53 1024 (S754_finite negative (m * Pos.pow 10 k) 0)
                                (S754_finite false 1 0)
      | Z0 => SFdiv 53 1024 (S754_finite negative m 0) (S754_finite false 1 0)
      end
  end.

(** A conversion that overflows sets failbit. *)
Definition finite_or_fail (v : double) : option double :=
  match v with
  | S754_zero _ | S754_finite _ _ _ => Some v
  | S754_infinity _ | S754_nan => None
  end.

(** [stream >> value] for [double], default flags. *)
Definition extract_double (s : cstring) : option double :=
  match parse_decimal s with
  | Some (negative, n, e) => finite_or_fail (decimal_to_double negative n e)
  | None => None
  end.

#[export] Instance double_arithmetic : Arithmetic double := {|
  is_floating_point := true;
  is_signed := true;
  less := SFltb;
  extract := extract_double
|}.

Module checks.

Definition matches_regex (regular_expression : regex.pattern) : Check :=
  fun user_input =>
    if negb (regex.regex_match user_input regular_expression)
    then InvalidInput INVALID_INPUT_PROMPT
    else Accept.

Definition cstring_eqb (a b : cstring) : bool :=
  if list_eq_dec ascii_dec a b then true else false.

(** [checks::is]; the name [is] is reserved in Rocq. *)
Definition is_ (case_sensitive : bool) (strings : list cstring) : Check :=
  fun user_input =>
    let comparison_strings := strings in
    let user_input :=
      if negb case_sensitive then map toupper user_input else user_input in
    let comparison_strings :=
      if negb case_sensitive then map (map toupper) comparison_strings
      else comparison_strings in
    if existsb (cstring_eqb user_input) comparison_strings
    then Accept
    else InvalidInput INVALID_INPUT_PROMPT.

(** The argument is an [unsigned int]. Constructing the std::regex may
    throw, in which case no check is returned. *)
Definition length (length : N) : regex.try Check :=
  regex.map_try matches_regex
    (regex.compile (lit "^.{" ++ to_string length ++ lit "}$")).

Definition consists_of (string_of_char : cstring) : regex.try Check :=
  regex.map_try matches_regex
    (regex.compile (lit "^[" ++ string_of_char ++ lit "]+$")).

Definition numeric_expression (T : Type) `{Arithmetic T} : cstring :=
  let expression := lit "^" in
  let expression :=
    if is_floating_point then expression ++ lit "-?[0-9]+\.[0-9]+"
    else
      let expression :=
        if is_signed then expression ++ lit "-?" else expression in
      expression ++ lit "[0-9]+" in
  expression ++ ["$"%char].
Arguments numeric_expression T {_}.

Definition numeric (T : Type) `{Arithmetic T} : regex.try Check :=
  regex.map_try matches_regex (regex.compile (numeric_expression T)).
Arguments numeric T {_}.

(** The check built by [range] builds [numeric<T>()] each time it is
    called. The three numeric expressions all compile (lemma
    [numeric_builds] below), so the [Throw] branch is never taken. *)
Definition range {T : Type} `{Arithmetic T} (mininimum maximum : T) : Check :=
  fun user_input =>
    match numeric T with
    | regex.Throw _ => InvalidInput INVALID_INPUT_PROMPT
    | regex.Ok numeric_check =>
        match numeric_check user_input with
        | InvalidInput what => InvalidInput what
        | Accept =>
            match extract user_input with
            | None => InvalidInput INVALID_INPUT_PROMPT
            | Some user_input_numeric =>
                if less user_input_numeric mininimum
                   || less maximum user_input_numeric
                then InvalidInput INVALID_INPUT_PROMPT
                else Accept
            end
        end
    end.

Module wrappers.

(** The exception is built from [error_message.c_str()], a C string. *)
Definition custom (check : Check) (error_message : cstring) : Check :=
  fun user_input =>
    match check user_input with
    | Accept => Accept
    | InvalidInput _ => InvalidInput (c_str error_message)
    end.

Definition inverse (check : Check) : Check :=
  fun user_input =>
    match check user_input with
    | InvalidInput _ => Accept
    | Accept => InvalidInput INVALID_INPUT_PROMPT
    end.

(** The body of the check built by [any]: the outcome together with the
    number of wrapped checks that were called. *)
Fixpoint any_run (checks : list Check) (user_input : cstring)
  : outcome * nat :=
  match checks with
  | [] => (InvalidInput INVALID_INPUT_PROMPT, O)
  | check :: checks' =>
      match check user_input with
      | InvalidInput _ =>
          let (o, calls) := any_run checks' user_input in (o, S calls)
      | Accept => (Accept, 1)
      end
  end.

(** [any] iterates over the braced list [{ checks... }]. With an empty
    pack the element type of that list cannot be deduced and the
    instantiation is ill-formed: there is no check [any()]. *)
Definition any (checks : list Check) : option Check :=
  match checks with
  | [] => None
  | _ :: _ => Some (fun user_input => fst (any_run checks user_input))
  end.

End wrappers.

End checks.

(** ** Vocabulary of the statements *)

(** What the line editor does with a keystroke. *)
Inductive key_kind : Type := Delete | Confirm | Other.

Definition kind (c : ascii) : key_kind :=
  if (c =? infuncs.BACKSPACE)%char then Delete
  else if (c =? infuncs.NEWLINE)%char then Confirm
  else Other.

(** The characters with a meaning of their own inside a bracket
    expression. *)
Definition class_syntax (c : ascii) : bool := regex.one_of "\]^-[" c.

(** The input that the next read will see: a failed std::cin makes [getch]
    discard the rest of the current line first. *)
Definition pending_input (w : World) : cstring :=
  if cin_fail w then after_newline (stdin w) else stdin w.

Definition accepted (s : cstring) (check : Check) : Prop := check s = Accept.

Definition rejected (s : cstring) (check : Check) : Prop :=
  exists what, check s = InvalidInput what.

(** The accumulator after one keystroke, and after a sequence of them. *)
Definition edit (user_input : cstring) (c : ascii) : cstring :=
  match kind c with
  | Delete => infuncs.pop_back user_input
  | Confirm => user_input
  | Other => user_input ++ [c]
  end.

Definition typed (keys : list ascii) (user_input : cstring) : cstring :=
  fold_left edit keys user_input.

(** What one keystroke makes the line editor write. *)
Definition echo (mask : option ascii) (user_input : cstring) (c : ascii)
  : cstring :=
  match kind c with
  | Delete =>
      match user_input with
      | [] => []
      | _ :: _ => [infuncs.CURSOR_BACK; " "%char; infuncs.CURSOR_BACK]
      end
  | Confirm => []
  | Other => [match mask with Some m => m | None => c end]
  end.

(** Whether a bounded run came back. *)
Definition finished {A} (r : result A) : bool :=
  match r with
  | Returned _ _ => true
  | Pending _ => false
  end.

(** A console with the given local-mode flags and pending input, nothing
    written yet. *)
Definition console (lflag : Z) (input : cstring) : World :=
  {| terminal := {| c_iflag := 0; c_oflag := 0; c_cflag := 0;
                    c_lflag := lflag |};
     cin_fail := false; stdin := input; stdout := []; stderr := [] |}.

(** The character that [getch] hands to its caller at end of input. *)
Definition eof_char : ascii := char_of_int EOF.

(** A run of [k] characters satisfies the quantifier {lo,hi}. *)
Definition within (lo : N) (hi : option N) (k : nat) : Prop :=
  (lo <= N.of_nat k)%N /\
  match hi with Some h => (N.of_nat k <= h)%N | None => True end.

(** The candidate passes the syntax check [numeric<T>()]. *)
Definition numeric_accepts (T : Type) `{Arithmetic T} (s : cstring) : Prop :=
  exists numeric_check,
    checks.numeric T = regex.Ok numeric_check /\ accepted s numeric_check.
Arguments numeric_accepts T {_} s.

(** What a sequence of keystrokes makes the line editor write, starting
    from the accumulator [user_input]. *)
Fixpoint shown (mask : option ascii) (keys : list ascii) (user_input : cstring)
  : cstring :=
  match keys with
  | [] => []
  | k :: keys' => echo mask user_input k ++ shown mask keys' (edit user_input k)
  end.

(** A line without delete and confirm keystrokes, and its echo. *)
Definition plain (line : cstring) : Prop :=
  Forall (fun c => kind c = Other) line.

Definition echo_line (mask : option ascii) (line : cstring) : cstring :=
  map (fun c => match mask with Some m => m | None => c end) line.

(** The erase sequence. *)
Definition erase : cstring :=
  [infuncs.CURSOR_BACK; " "%char; infuncs.CURSOR_BACK].

(** Lines as they are typed: each followed by the confirm keystroke. *)
Definition script (lines : list cstring) : cstring :=
  List.concat (map (fun line => line ++ [infuncs.NEWLINE]) lines).

(** The mask of the two line styles. *)
Definition style_mask (style : Style) : option ascii :=
  match style with
  | Masked => Some INPUT_MASK
  | _ => None
  end.

(** The value of a run of decimal digits. *)
Definition decimal (ds : cstring) : N := fst (number 0 ds).

(** A non-empty run of decimal digits. *)
Definition digits (ds : cstring) : Prop :=
  ds <> [] /\ Forall (fun c => isdigit c = true) ds.

(** What a session displays: the message, once or before every attempt,
    and after each attempt its echo and a newline. *)
Definition session_display (prompt_once : bool) (message : cstring)
    (attempts : list cstring) (final : cstring) : cstring :=
  if prompt_once
  then message ++ List.concat (map (fun e => e ++ endl) attempts)
       ++ final ++ endl
  else List.concat (map (fun e => message ++ e ++ endl) attempts)
       ++ message ++ final ++ endl.

(** What a session reports: the message of each failed attempt and a
    newline. *)
Definition session_errors (messages : list cstring) : cstring :=
  List.concat (map (fun what => what ++ endl) messages).

(** Not a number. *)
Definition is_nan (v : double) : bool :=
  match v with S754_nan => true | _ => false end.

(** The optional minus sign of a numeral. *)
Definition sign_of (negative : bool) : cstring :=
  if negative then ["-"%char] else [].

(** The integer written as an optional minus sign and the digits [ds]. *)
Definition signed_value (negative : bool) (ds : cstring) : Z :=
  if negative then (- Z.of_N (decimal ds))%Z else Z.of_N (decimal ds).

(** * Properties *)

(** ** Outcomes *)

Lemma accepted_or_rejected (check : Check) (s : cstring) :
  accepted s check \/ rejected s check.
Proof.
  unfold accepted, rejected.
  destruct (check s) as [|what]; [left; reflexivity | right; eauto].
Qed.

Lemma rejected_not_accepted (check : Check) (s : cstring) :
  rejected s check <-> ~ accepted s check.
Proof.
  unfold accepted, rejected. split.
  - intros [what E] A. congruence.
  - intros NA. destruct (check s) as [|what]; [congruence | eauto].
Qed.

(** ** The validation loop *)

Lemma first_failure_none (checks : list Check) (s : cstring) :
  first_failure checks s = None <-> Forall (accepted s) checks.
Proof.
  induction checks as [|check checks IH]; simpl.
  - split; auto.
  - split.
    + destruct (check s) eqn:E; [|discriminate].
      intros H. constructor; [exact E | apply IH; exact H].
    + intros H. inversion H as [|? ? A F]; subst.
      unfold accepted in A. rewrite A. apply IH; exact F.
Qed.

(** The message reported is that of the first check, in the order supplied,
    that rejects. *)
Lemma first_failure_some (checks : list Check) (s what : cstring) :
  first_failure checks s = Some what <->
  exists before check after,
    checks = before ++ check :: after /\
    Forall (accepted s) before /\
    check s = InvalidInput what.
Proof.
  induction checks as [|check checks IH]; simpl.
  - split; [discriminate|].
    intros (before & c & after & E & _). destruct before; discriminate.
  - destruct (check s) eqn:E.
    + rewrite IH. split.
      * intros (before & c & after & -> & F & R).
        exists (check :: before), c, after. repeat split; auto.
      * intros (before & c & after & Eq & F & R).
        destruct before as [|b before]; simpl in Eq; inversion Eq; subst.
        -- congruence.
        -- inversion F; subst. exists before, c, after. auto.
    + split.
      * intros H; inversion H; subst.
        exists [], check, checks. repeat split; auto.
      * intros (before & c & after & Eq & F & R).
        destruct before as [|b before]; simpl in Eq; inversion Eq; subst.
        -- congruence.
        -- inversion F as [|? ? A ?]; subst. unfold accepted in A. congruence.
Qed.

Lemma validate_loop_returned (bound : nat) (input_function : InputFunction)
    (checks : list Check) :
  forall w s w',
    validate_loop bound input_function checks w = Returned s w' ->
    first_failure checks s = None /\
    exists w0 w1, input_function w0 = Returned s w1 /\ w' = cout endl w1.
Proof.
  induction bound as [|bound IH]; intros w s w' H; simpl in H.
  - discriminate.
  - destruct (input_function w) as [user_input w1|w1] eqn:E; [|discriminate].
    destruct (first_failure checks user_input) as [what|] eqn:F.
    + apply IH in H. exact H.
    + inversion H; subst. split; [exact F|].
      exists w, w1. split; [exact E | reflexivity].
Qed.

(** The loop does return, on the first attempt whose input passes every
    check. *)
Lemma validate_returns_on_accepted_input (bound : nat)
    (input_function : InputFunction) (checks : list Check)
    (w w1 : World) (s : cstring) :
  input_function w = Returned s w1 ->
  Forall (accepted s) checks ->
  validate (S bound) input_function checks w = Returned s (cout endl w1).
Proof.
  intros E F. apply first_failure_none in F.
  destruct checks as [|check checks]; unfold validate.
  - rewrite E. reflexivity.
  - cbn [validate_loop]. rewrite E, F. reflexivity.
Qed.

(** C1. Whatever the input function and the checks, a string returned by
    [validate] is the one the input function produced on the last attempt,
    and on that attempt every check of the list, tried in the order
    supplied, accepted it: no check threw InvalidInputException on it. *)
Theorem validate_returns_accepted_input
    (bound : nat) (input_function : InputFunction) (checks : list Check)
    (w : World) (s : cstring) (w' : World) :
  validate bound input_function checks w = Returned s w' ->
  Forall (accepted s) checks /\
  first_failure checks s = None /\
  (forall check what, In check checks -> check s <> InvalidInput what) /\
  exists w0 w1, input_function w0 = Returned s w1 /\ w' = cout endl w1.
Proof.
  intros H.
  assert (F : first_failure checks s = None /\
              exists w0 w1, input_function w0 = Returned s w1 /\
                            w' = cout endl w1).
  { destruct checks as [|check checks]; simpl in H.
    - destruct (input_function w) as [user_input w1|w1] eqn:E;
        [|discriminate].
      inversion H; subst. split; [reflexivity|].
      exists w, w1. auto.
    - eapply validate_loop_returned; exact H. }
  destruct F as [F P].
  pose proof (proj1 (first_failure_none checks s) F) as A.
  repeat split; auto.
  intros check what I R.
  rewrite Forall_forall in A. specialize (A check I).
  unfold accepted in A. congruence.
Qed.

(** ** Wrappers *)

(** C6. [inverse check] accepts exactly the candidates that [check]
    rejects, and rejects, with the default message, exactly those that
    [check] accepts. *)
Theorem inverse_strict_complement (check : Check) (s : cstring) :
  (accepted s (checks.wrappers.inverse check) <-> rejected s check) /\
  (rejected s (checks.wrappers.inverse check) <-> accepted s check) /\
  (checks.wrappers.inverse check s = InvalidInput INVALID_INPUT_PROMPT <->
   accepted s check).
Proof.
  unfold accepted, rejected, checks.wrappers.inverse.
  destruct (check s) as [|what]; repeat split;
    try congruence; try (intros [m E]; congruence); eauto.
Qed.

Lemma any_run_accept (checks : list Check) (s : cstring) :
  fst (checks.wrappers.any_run checks s) = Accept <->
  Exists (accepted s) checks.
Proof.
  induction checks as [|check checks IH]; simpl.
  - split; [discriminate | intros H; inversion H].
  - destruct (check s) as [|what] eqn:E.
    + simpl. split; auto.
    + destruct (checks.wrappers.any_run checks s) as [o calls]. simpl in *.
      rewrite IH. split.
      * intros H. right. exact H.
      * intros H. inversion H as [? ? A|? ? A]; subst; auto.
        unfold accepted in A. congruence.
Qed.

Lemma any_run_first_acceptance (s : cstring) :
  forall before check after,
    Forall (rejected s) before -> accepted s check ->
    checks.wrappers.any_run (before ++ check :: after) s
    = (Accept, S (List.length before)).
Proof.
  induction before as [|b before IH]; intros check after R A; simpl.
  - unfold accepted in A. rewrite A. reflexivity.
  - inversion R as [|? ? [what Rb] R']; subst. rewrite Rb.
    rewrite (IH check after R' A). reflexivity.
Qed.

Lemma any_run_all_rejected (s : cstring) (checks : list Check) :
  Forall (rejected s) checks ->
  checks.wrappers.any_run checks s
  = (InvalidInput INVALID_INPUT_PROMPT, List.length checks).
Proof.
  induction checks as [|check checks IH]; intros R; simpl.
  - reflexivity.
  - inversion R as [|? ? [what Rb] R']; subst. rewrite Rb.
    rewrite (IH R'). reflexivity.
Qed.

Lemma any_some (checks : list Check) (check : Check) :
  checks.wrappers.any checks = Some check ->
  check = fun user_input => fst (checks.wrappers.any_run checks user_input).
Proof.
  destruct checks; simpl; intros H; [discriminate|].
  inversion H. reflexivity.
Qed.

(** C7. The check built by [any] from c1..cn accepts a candidate exactly
    when some ci accepts it. The wrapped checks are called in the order
    given and none is called after the first that accepts; when all of them
    reject, all have been called and the rejection carries the default
    message. *)
Theorem any_accepts_iff_some_check_accepts
    (checks : list Check) (check : Check) (s : cstring) :
  checks.wrappers.any checks = Some check ->
  (accepted s check <-> Exists (accepted s) checks) /\
  (forall before c after,
     checks = before ++ c :: after ->
     Forall (rejected s) before -> accepted s c ->
     checks.wrappers.any_run checks s = (Accept, S (List.length before))) /\
  (Forall (rejected s) checks ->
     check s = InvalidInput INVALID_INPUT_PROMPT /\
     snd (checks.wrappers.any_run checks s) = List.length checks) /\
  (rejected s check -> check s = InvalidInput INVALID_INPUT_PROMPT).
Proof.
  intros H. apply any_some in H. subst check.
  split; [|split; [|split]].
  - unfold accepted at 1. apply any_run_accept.
  - intros before c after -> R A. apply any_run_first_acceptance; assumption.
  - intros R. rewrite (any_run_all_rejected R). auto.
  - intros R. apply rejected_not_accepted in R.
    destruct (Exists_dec (accepted s) checks) as [E|NE].
    { intros c. unfold accepted. destruct (c s); [left|right]; congruence. }
    + exfalso. apply R. unfold accepted. apply any_run_accept. exact E.
    + assert (F : Forall (rejected s) checks).
      { rewrite Forall_forall. intros c I. apply rejected_not_accepted.
        intros A. apply NE. apply Exists_exists. eauto. }
      rewrite (any_run_all_rejected F). reflexivity.
Qed.

(** ** Numeric checks *)

Lemma matches_regex_message (p : regex.pattern) (s what : cstring) :
  checks.matches_regex p s = InvalidInput what -> what = INVALID_INPUT_PROMPT.
Proof.
  unfold checks.matches_regex.
  destruct (regex.regex_match s p); simpl; congruence.
Qed.

(** Each of the three numeric expressions is a well-formed pattern. *)
Lemma numeric_builds (T : Type) (H : Arithmetic T) :
  exists p, regex.compile (checks.numeric_expression T) = regex.Ok p /\
            checks.numeric T = regex.Ok (checks.matches_regex p).
Proof.
  unfold checks.numeric, checks.numeric_expression.
  destruct H as [fp sg lt ex].
  cbn [is_floating_point is_signed].
  destruct fp; [|destruct sg];
    match goal with
    | |- exists p, ?c = _ /\ _ =>
        let r := eval vm_compute in c in
        change c with r;
        match r with regex.Ok ?q => exists q end
    end; split; reflexivity.
Qed.

Lemma range_unfold (T : Type) (H : Arithmetic T) (mininimum maximum : T)
    (s : cstring) :
  exists numeric_check,
    checks.numeric T = regex.Ok numeric_check /\
    (forall what, numeric_check s = InvalidInput what ->
                  what = INVALID_INPUT_PROMPT) /\
    checks.range mininimum maximum s =
      match numeric_check s with
      | InvalidInput what => InvalidInput what
      | Accept =>
          match extract s with
          | None => InvalidInput INVALID_INPUT_PROMPT
          | Some v =>
              if less v mininimum || less maximum v
              then InvalidInput INVALID_INPUT_PROMPT
              else Accept
          end
      end.
Proof.
  destruct (numeric_builds H) as (p & _ & E).
  exists (checks.matches_regex p). split; [exact E|]. split.
  - intros what. apply matches_regex_message.
  - unfold checks.range. rewrite E. reflexivity.
Qed.

(** *** The order of binary64 *)

Lemma SFcompare_antisym (a b : double) :
  SFcompare b a = option_map CompOpp (SFcompare a b).
Proof.
  destruct a as [sa|sa| |sa ma ea], b as [sb|sb| |sb mb eb];
    try reflexivity;
    try (destruct sa; reflexivity); try (destruct sb; reflexivity);
    try (destruct sa, sb; reflexivity).
  cbn [SFcompare option_map].
  rewrite (Z.compare_antisym ea eb).
  rewrite !Pos.compare_cont_spec. cbn [Pos.switch_Eq].
  rewrite (Pos.compare_antisym ma mb).
  destruct sa, sb; try reflexivity;
    destruct (ea ?= eb)%Z; cbn [CompOpp]; try reflexivity;
    destruct (ma ?= mb)%positive; reflexivity.
Qed.

(** Between numbers, [a <= b] holds exactly when [b < a] does not. *)
Lemma double_leq_less (a b : double) :
  is_nan a = false -> is_nan b = false ->
  SFleb a b = negb (SFltb b a).
Proof.
  intros A B. unfold SFleb, SFltb. rewrite (SFcompare_antisym a b).
  assert (C : exists c, SFcompare a b = Some c).
  { destruct a as [sa|sa| |sa ma ea]; try discriminate;
      destruct b as [sb|sb| |sb mb eb]; try discriminate;
      cbn [SFcompare]; eauto. }
  destruct C as [c C]. rewrite C. destruct c; reflexivity.
Qed.

Lemma extract_double_not_nan (s : cstring) (v : double) :
  extract_double s = Some v -> is_nan v = false.
Proof.
  unfold extract_double.
  destruct (parse_decimal s) as [[[negative n] e]|]; [|discriminate].
  destruct (decimal_to_double negative n e); cbn; intros E;
    inversion E; reflexivity.
Qed.

Lemma range_ordered (T : Type) (H : Arithmetic T)
    (leq : T -> T -> bool) (unordered : T -> bool) :
  (forall a b, unordered a = false -> unordered b = false ->
               leq a b = negb (less b a)) ->
  (forall s v, extract s = Some v -> unordered v = false) ->
  forall (mininimum maximum : T) (s : cstring),
    unordered mininimum = false -> unordered maximum = false ->
    (accepted s (checks.range mininimum maximum) <->
     numeric_accepts T s /\
     exists v, extract s = Some v /\
               leq mininimum v = true /\ leq v maximum = true).
Proof.
  intros Total Ordered mininimum maximum s Umin Umax.
  destruct (range_unfold H mininimum maximum s) as (nc & E & M & R).
  unfold accepted, numeric_accepts. rewrite R. split.
  - intros A. destruct (nc s) eqn:N; [|discriminate].
    destruct (extract s) as [v|] eqn:X; [|discriminate].
    pose proof (Ordered s v X) as Uv.
    destruct (less v mininimum) eqn:L1; [discriminate|].
    destruct (less maximum v) eqn:L2; [discriminate|].
    split; [exists nc; auto|]. exists v.
    rewrite (Total mininimum v Umin Uv), (Total v maximum Uv Umax), L1, L2.
    auto.
  - intros [(nc' & E' & A) (v & X & L1 & L2)].
    rewrite E in E'. inversion E'; subst nc'.
    unfold accepted in A. rewrite A, X.
    pose proof (Ordered s v X) as Uv.
    rewrite (Total mininimum v Umin Uv) in L1.
    rewrite (Total v maximum Uv Umax) in L2.
    apply negb_true_iff in L1, L2. rewrite L1, L2. reflexivity.
Qed.



Example range_double :
  let r := checks.range (T := double)
             (S754_finite false 4503599627370496 (-53))
             (S754_finite false 5629499534213120 (-51)) in
  accepted (lit "0.5") r /\ accepted (lit "1.5") r /\
  accepted (lit "2.50") r /\ rejected (lit "2.51") r /\
  rejected (lit "-0.0") r /\ rejected (lit "3") r /\
  extract_double (lit "0.5")
  = Some (S754_finite false 4503599627370496 (-53)) /\
  extract_double (lit "2.5")
  = Some (S754_finite false 5629499534213120 (-51)).
Proof.
  unfold accepted, rejected. cbv zeta.
  repeat split; try (vm_compute; reflexivity);
    eexists; vm_compute; reflexivity.
Qed.

(** ** Decimal numerals *)

Lemma digit_char_facts (d : N) :
  (d < 10)%N -> isdigit (digit_char d) = true /\ digit_value (digit_char d) = d.
Proof.
  intros H.
  assert (C : (d = 0 \/ d = 1 \/ d = 2 \/ d = 3 \/ d = 4 \/ d = 5 \/ d = 6 \/
               d = 7 \/ d = 8 \/ d = 9)%N) by lia.
  repeat (destruct C as [-> | C]; [split; reflexivity|]).
  subst; split; reflexivity.
Qed.

Lemma digits_lsf_all_digits (bound : nat) :
  forall n, Forall (fun c => isdigit c = true) (digits_lsf bound n).
Proof.
  induction bound as [|bound IH]; intros n; simpl; constructor.
  - apply digit_char_facts. apply N.mod_lt. discriminate.
  - destruct (n / 10 =? 0)%N; [constructor | apply IH].
Qed.

Lemma digits_lsf_value (bound : nat) :
  forall n, (n < 2 ^ N.of_nat bound)%N ->
    fold_right (fun c acc => 10 * acc + digit_value c)%N 0%N
               (digits_lsf bound n) = n.
Proof.
  induction bound as [|bound IH]; intros n H.
  - simpl in *. lia.
  - cbn [digits_lsf fold_right].
    assert (D : (n mod 10 < 10)%N) by (apply N.mod_lt; discriminate).
    rewrite (proj2 (digit_char_facts D)).
    pose proof (N.div_mod n 10 ltac:(discriminate)) as DM.
    destruct (n / 10 =? 0)%N eqn:Q.
    + apply N.eqb_eq in Q. cbn [fold_right]. lia.
    + rewrite IH; [lia|].
      rewrite Nat2N.inj_succ, N.pow_succ_r' in H.
      apply N.Div0.div_lt_upper_bound.
      remember (2 ^ N.of_nat bound)%N as P. clear - H. lia.
Qed.

Lemma number_digits (ds : cstring) :
  Forall (fun c => isdigit c = true) ds ->
  forall acc stop rest,
    isdigit stop = false ->
    number acc (ds ++ stop :: rest)
    = (fold_left (fun acc c => 10 * acc + digit_value c)%N ds acc,
       stop :: rest).
Proof.
  induction 1 as [|c ds D _ IH]; intros acc stop rest S; simpl.
  - rewrite S. reflexivity.
  - rewrite D. apply IH. exact S.
Qed.

Lemma to_string_digits (n : N) :
  Forall (fun c => isdigit c = true) (to_string n) /\
  exists c cs, to_string n = c :: cs /\ isdigit c = true.
Proof.
  assert (F : Forall (fun c => isdigit c = true) (to_string n)).
  { unfold to_string. apply Forall_rev. apply digits_lsf_all_digits. }
  split; [exact F|].
  destruct (to_string n) as [|c cs] eqn:E.
  - unfold to_string in E. simpl in E.
    apply (f_equal (@List.length ascii)) in E.
    rewrite length_app in E. simpl in E. lia.
  - inversion F; subst. eauto.
Qed.

(** Reading back the numeral written by [to_string]. *)
Lemma number_to_string (n : N) (stop : ascii) (rest : cstring) :
  isdigit stop = false ->
  number 0 (to_string n ++ stop :: rest) = (n, stop :: rest).
Proof.
  intros S.
  rewrite number_digits by (apply to_string_digits || exact S).
  f_equal. unfold to_string.
  rewrite <- fold_left_rev_right, rev_involutive.
  apply digits_lsf_value.
  rewrite Nat2N.inj_succ, N2Nat.id.
  destruct n as [|p]; [reflexivity|].
  apply N.log2_spec. reflexivity.
Qed.

(** ** Matching against ^a{lo,hi}$ *)

Lemma tails_spec (a : regex.atom) (s : cstring) :
  forall lo hi r,
    In r (regex.tails a lo hi s) <->
    exists run, s = run ++ r /\
                forallb (regex.admits a) run = true /\
                within lo hi (List.length run).
Proof.
  unfold within.
  induction s as [|c s IH]; intros lo hi r; cbn [regex.tails];
    rewrite in_app_iff.
  - split.
    + intros [H|[]]. destruct (lo =? 0)%N eqn:L; [|destruct H].
      destruct H as [<-|[]]. apply N.eqb_eq in L.
      exists []. repeat split; simpl; try lia. destruct hi; lia.
    + intros (run & E & _ & L & _). left.
      symmetry in E. apply app_eq_nil in E. destruct E as [-> ->].
      simpl in L. replace (lo =? 0)%N with true by (symmetry; apply N.eqb_eq; lia).
      left; reflexivity.
  - split.
    + intros [H|H].
      * destruct (lo =? 0)%N eqn:L; [|destruct H].
        destruct H as [<-|[]]. apply N.eqb_eq in L.
        exists []. repeat split; simpl; try lia. destruct hi; lia.
      * destruct (regex.admits a c) eqn:A; [|destruct H].
        destruct (regex.more hi) eqn:M; [|destruct H]. simpl in H.
        apply IH in H. destruct H as (run & -> & F & L & U).
        exists (c :: run). cbn [forallb List.length app]. rewrite A, F.
        repeat split; try lia.
        destruct hi as [h|]; simpl in *; [|exact I].
        apply N.ltb_lt in M. lia.
    + intros (run & E & F & L & U).
      destruct run as [|x run]; simpl in E.
      * left. subst r. simpl in L.
        replace (lo =? 0)%N with true by (symmetry; apply N.eqb_eq; lia).
        left; reflexivity.
      * right. inversion E; subst x s. cbn [forallb] in F.
        apply andb_true_iff in F. destruct F as [A F]. rewrite A.
        assert (M : regex.more hi = true).
        { destruct hi as [h|]; simpl in *; [apply N.ltb_lt; lia | reflexivity]. }
        rewrite M. simpl. apply IH. exists run.
        cbn [List.length] in L, U. repeat split; auto; try lia.
        destruct hi as [h|]; simpl in *; [lia | exact I].
Qed.

Lemma match_anchored_run (a : regex.atom) (lo : N) (hi : option N)
    (s : cstring) :
  regex.regex_match s [regex.Bol; regex.Rep a lo hi; regex.Eol] = true <->
  forallb (regex.admits a) s = true /\ within lo hi (List.length s).
Proof.
  unfold regex.regex_match. cbn [regex.accepts andb].
  rewrite existsb_exists. split.
  - intros (r & I & N). apply tails_spec in I.
    destruct I as (run & -> & F & W).
    destruct r; [|discriminate]. rewrite app_nil_r. auto.
  - intros [F W]. exists []. split; [|reflexivity].
    apply tails_spec. exists s. rewrite app_nil_r. auto.
Qed.

(** ** The patterns of [length] and [consists_of] *)

Lemma anchored_dot_braces (ds : cstring) (n : N) (bound : nat) :
  regex.braces (ds ++ "}"%char :: ["$"%char])
  = regex.Ok (n, Some n, ["$"%char]) ->
  regex.terms (S (S (S (S bound))))
    ("^"%char :: "."%char :: "{"%char :: ds ++ "}"%char :: ["$"%char])
  = regex.Ok [regex.Bol; regex.Rep regex.Dot n (Some n); regex.Eol].
Proof.
  intros B.
  cbn -[regex.braces regex.quantifier].
  unfold regex.quantifier.
  cbn -[regex.braces]. rewrite B. reflexivity.
Qed.

Lemma length_pattern (n : N) :
  (n <= regex.count_limit)%N ->
  regex.compile (lit "^.{" ++ to_string n ++ lit "}$")
  = regex.Ok [regex.Bol; regex.Rep regex.Dot n (Some n); regex.Eol].
Proof.
  intros L. unfold regex.compile.
  change (lit "^.{" ++ to_string n ++ lit "}$")
    with ("^"%char :: "."%char :: "{"%char
            :: to_string n ++ "}"%char :: ["$"%char]).
  cbn [List.length].
  rewrite length_app. cbn [List.length].
  replace (List.length (to_string n) + 2) with (S (S (List.length (to_string n))))
    by lia.
  apply anchored_dot_braces.
  unfold regex.braces, regex.braces_syntax.
  destruct (to_string_digits n) as (_ & c & cs & E & D).
  rewrite (number_to_string n "}" ["$"%char] eq_refl).
  rewrite E. cbn [app]. rewrite D.
  change ("}" =? "}")%char with true. cbv iota.
  cbn [regex.bind regex.within_limit].
  replace (regex.count_limit <? n)%N with false
    by (symmetry; apply N.ltb_ge; exact L).
  reflexivity.
Qed.

Lemma class_syntax_false (c : ascii) :
  class_syntax c = false ->
  (c =? "\")%char = false /\ (c =? "]")%char = false /\
  (c =? "^")%char = false /\ (c =? "-")%char = false /\
  (c =? "[")%char = false.
Proof.
  unfold class_syntax, regex.one_of. cbn [lit list_ascii_of_string existsb].
  intros H. repeat (apply orb_false_iff in H; destruct H as [? H]). auto.
Qed.

Lemma class_atoms_plain (allowed rest : cstring) :
  Forall (fun c => class_syntax c = false) allowed ->
  regex.class_atoms (allowed ++ "]"%char :: rest)
  = regex.Ok (map regex.One allowed, rest).
Proof.
  induction 1 as [|c allowed C F IH].
  - reflexivity.
  - apply class_syntax_false in C. destruct C as (C1 & C2 & C3 & C4 & C5).
    cbn [app regex.class_atoms]. rewrite C1, C2, C5.
    assert (N : regex.map_try (fun r => (regex.One c :: fst r, snd r))
                  (regex.class_atoms (allowed ++ "]"%char :: rest))
                = regex.Ok (map regex.One (c :: allowed), rest)).
    { rewrite IH. reflexivity. }
    destruct allowed as [|d allowed].
    + cbn [app] in *. destruct rest as [|hi rest']; [exact N|].
      change ("]" =? "-")%char with false. cbv iota. exact N.
    + cbn [app] in *. inversion F as [|? ? D _]; subst.
      apply class_syntax_false in D. destruct D as (_ & _ & _ & D4 & _).
      destruct (allowed ++ "]"%char :: rest); [exact N|].
      rewrite D4. exact N.
Qed.

Lemma anchored_bracket_plus (body : cstring) (a : regex.atom) (bound : nat) :
  regex.bracket (body ++ "]"%char :: ["+"%char; "$"%char])
  = regex.Ok (a, ["+"%char; "$"%char]) ->
  regex.terms (S (S (S (S bound))))
    ("^"%char :: "["%char :: body ++ "]"%char :: ["+"%char; "$"%char])
  = regex.Ok [regex.Bol; regex.Rep a 1 None; regex.Eol].
Proof.
  intros B.
  cbn -[regex.bracket regex.quantifier].
  unfold regex.single. cbn -[regex.bracket regex.quantifier].
  rewrite B. reflexivity.
Qed.

Lemma consists_of_pattern (allowed : cstring) :
  Forall (fun c => class_syntax c = false) allowed ->
  regex.compile (lit "^[" ++ allowed ++ lit "]+$")
  = regex.Ok [regex.Bol;
              regex.Rep (regex.Bracket false (map regex.One allowed)) 1 None;
              regex.Eol].
Proof.
  intros F. unfold regex.compile.
  change (lit "^[" ++ allowed ++ lit "]+$")
    with ("^"%char :: "["%char :: allowed ++ "]"%char :: ["+"%char; "$"%char]).
  cbn [List.length]. rewrite length_app. cbn [List.length].
  replace (List.length allowed + 3) with (S (S (S (List.length allowed))))
    by lia.
  apply anchored_bracket_plus.
  unfold regex.bracket.
  pose proof (class_atoms_plain ["+"%char; "$"%char] F) as P.
  destruct allowed as [|c allowed].
  - cbn [app] in *. change ("]" =? "^")%char with false. cbv iota.
    rewrite P. reflexivity.
  - cbn [app] in *. inversion F as [|? ? C _]; subst.
    apply class_syntax_false in C. destruct C as (_ & _ & C3 & _).
    rewrite C3, P. reflexivity.
Qed.

Lemma admits_plain_class (allowed : cstring) (c : ascii) :
  regex.admits (regex.Bracket false (map regex.One allowed)) c = true <->
  In c allowed.
Proof.
  cbn [regex.admits xorb]. rewrite existsb_exists. split.
  - intros (m & I & M). apply in_map_iff in I. destruct I as (x & <- & I).
    simpl in M. apply Ascii.eqb_eq in M. subst. exact I.
  - intros I. exists (regex.One c). split.
    + apply in_map. exact I.
    + simpl. apply Ascii.eqb_refl.
Qed.

(** Exhibits the check that a combinator builds from a given pattern
    string, and evaluates checks on given candidates. *)
Ltac exhibit_check :=
  unfold checks.length, checks.consists_of;
  match goal with
  | |- context [regex.compile ?src] =>
      let c := fresh "c" in
      set (c := regex.compile src); vm_compute in c; subst c
  end;
  cbn [regex.map_try regex.bind];
  eexists; split; [reflexivity|].

Ltac run_check :=
  unfold accepted, rejected;
  first [vm_compute; reflexivity | eexists; vm_compute; reflexivity].

Lemma forallb_Forall_false (f : ascii -> bool) (s : cstring) :
  forallb (fun c => negb (f c)) s = true <-> Forall (fun c => f c = false) s.
Proof.
  rewrite forallb_forall, Forall_forall.
  split; intros H c I; specialize (H c I).
  - apply negb_true_iff. exact H.
  - apply negb_true_iff. exact H.
Qed.

(** What [length(n)] accepts, for [n] up to the limit on repetition counts.
    Its pattern is ^.{n}$ and a dot does not match a line terminator: the
    check accepts a candidate exactly when its length is [n] and it
    contains neither a line feed nor a carriage return. In particular
    length(3) accepts abc and 123 and rejects ab and abcd. *)
Theorem length_accepts_exact_length_without_line_terminators :
  (forall (n : N) (s : cstring),
     (n <= regex.count_limit)%N ->
     exists check,
       checks.length n = regex.Ok check /\
       (accepted s check <->
        N.of_nat (List.length s) = n /\
        Forall (fun c => regex.line_terminator c = false) s)) /\
  (exists check,
     checks.length 3 = regex.Ok check /\
     accepted (lit "abc") check /\ accepted (lit "123") check /\
     rejected (lit "ab") check /\ rejected (lit "abcd") check).
Proof.
  split.
  - intros n s Q. unfold checks.length. rewrite (length_pattern Q).
    eexists. split; [reflexivity|].
    unfold accepted, checks.matches_regex.
    destruct (regex.regex_match s _) eqn:M; cbn [negb].
    + apply match_anchored_run in M. destruct M as [F [L U]].
      split; [intros _|reflexivity]. split; [lia|].
      apply forallb_Forall_false. exact F.
    + split; [discriminate|]. intros [L F]. exfalso.
      assert (M' : regex.regex_match s
                     [regex.Bol; regex.Rep regex.Dot n (Some n); regex.Eol]
                   = true).
      { apply match_anchored_run. split.
        - apply forallb_Forall_false. exact F.
        - unfold within. lia. }
      congruence.
  - exhibit_check. repeat split; run_check.
Qed.

(** C4. [length(n)] is documented as the check that the input has the
    given length, for any characters. The code departs from it on line
    terminators: the candidate made of one carriage return has length one
    and the check built by length(1) rejects it. *)
Lemma length_rejects_carriage_return :
  exists check,
    checks.length 1 = regex.Ok check /\
    List.length ["013"%char] = 1 /\
    rejected ["013"%char] check.
Proof.
  exhibit_check. split; [reflexivity | run_check].
Qed.

(** What [consists_of] accepts on plain characters. When [allowed_chars]
    contains none of the characters that have a meaning of their own inside
    a bracket expression (backslash, closing and opening bracket, caret,
    dash), the check accepts a candidate exactly when it is non-empty and
    each of its characters occurs in [allowed_chars]. *)
Theorem consists_of_plain_characters (allowed s : cstring) :
  Forall (fun c => class_syntax c = false) allowed ->
  exists check,
    checks.consists_of allowed = regex.Ok check /\
    (accepted s check <-> s <> [] /\ Forall (fun c => In c allowed) s).
Proof.
  intros P. unfold checks.consists_of. rewrite (consists_of_pattern P).
  eexists. split; [reflexivity|].
  assert (A : forallb (regex.admits
                         (regex.Bracket false (map regex.One allowed))) s
              = true <-> Forall (fun c => In c allowed) s).
  { rewrite forallb_forall, Forall_forall.
    split; intros H c I; apply admits_plain_class; auto. }
  unfold accepted, checks.matches_regex.
  destruct (regex.regex_match s _) eqn:M; cbn [negb].
  - apply match_anchored_run in M. destruct M as [F [L _]].
    split; [intros _|reflexivity]. split.
    + intros ->. simpl in L. lia.
    + apply A. exact F.
  - split; [discriminate|]. intros [N F]. exfalso.
    assert (M' : regex.regex_match s
                   [regex.Bol;
                    regex.Rep (regex.Bracket false (map regex.One allowed))
                              1 None;
                    regex.Eol] = true).
    { apply match_anchored_run. split; [apply A; exact F|].
      unfold within. split; [|exact I].
      destruct s; [congruence | cbn [List.length]; lia]. }
    congruence.
Qed.

Lemma consists_of_plain_characters_witness :
  Forall (fun c => class_syntax c = false) (lit "abc") /\
  exists check,
    checks.consists_of (lit "abc") = regex.Ok check /\
    (accepted (lit "cab") check <->
     lit "cab" <> [] /\ Forall (fun c => In c (lit "abc")) (lit "cab")).
Proof.
  assert (P : Forall (fun c => class_syntax c = false) (lit "abc")).
  { repeat constructor. }
  split; [exact P|].
  exact (consists_of_plain_characters (lit "cab") P).
Defined.

(** C3. [consists_of] is documented as the check that the input consists
    exclusively of the characters in the given string. The code splices
    [allowed_chars] unescaped into a bracket expression, where a dash
    between two characters denotes a range: the check built from a-c
    accepts b, which is not among its characters, and rejects the dash,
    which is. *)
Lemma consists_of_reads_dash_as_range :
  exists check,
    checks.consists_of (lit "a-c") = regex.Ok check /\
    accepted (lit "b") check /\ ~ In "b"%char (lit "a-c") /\
    rejected (lit "-") check /\ In "-"%char (lit "a-c").
Proof.
  exhibit_check.
  split; [run_check|].
  split.
  - simpl. intros [H|[H|[H|[]]]]; discriminate.
  - split; [run_check|].
    simpl. auto.
Qed.

(** ** The raw reader *)

Lemma char_of_int_code (c : ascii) : char_of_int (Z.of_N (code c)) = c.
Proof.
  unfold char_of_int, code.
  pose proof (N_ascii_bounded c) as B.
  rewrite Z.mod_small by lia.
  rewrite N2Z.id. apply ascii_N_embedding.
Qed.

Lemma tcflag_t_land (z : Z) : tcflag_t z = Z.land z (Z.ones 32).
Proof. unfold tcflag_t. symmetry. apply Z.land_ones. lia. Qed.

Lemma testbit_ICANON (n : Z) : Z.testbit ICANON n = (1 =? n)%Z.
Proof. change ICANON with (2 ^ 1)%Z. apply Z.pow2_bits_eqb. lia. Qed.

Lemma testbit_ECHO (n : Z) : Z.testbit ECHO n = (3 =? n)%Z.
Proof. change ECHO with (2 ^ 3)%Z. apply Z.pow2_bits_eqb. lia. Qed.

(** Clearing ICANON and ECHO and setting them again leaves both set and
    every other bit as it was. *)
Lemma lflag_after_getch (f : Z) :
  (0 <= f < 2 ^ 32)%Z ->
  tcflag_t (Z.lor (tcflag_t (Z.lor
    (tcflag_t (Z.land (tcflag_t (Z.land f (Z.lnot ICANON))) (Z.lnot ECHO)))
    ICANON)) ECHO)
  = Z.lor f (Z.lor ICANON ECHO).
Proof.
  intros R.
  assert (F : f = Z.land f (Z.ones 32)).
  { rewrite Z.land_ones by lia. symmetry. apply Z.mod_small. lia. }
  rewrite !tcflag_t_land. rewrite F at 2.
  apply Z.bits_inj'. intros n Hn.
  repeat (rewrite Z.land_spec || rewrite Z.lor_spec
          || rewrite Z.lnot_spec by lia).
  rewrite !testbit_ICANON, !testbit_ECHO.
  rewrite !Z.testbit_ones_nonneg by lia.
  destruct (Z.testbit f n), (Z.eqb_spec 1 n), (Z.eqb_spec 3 n),
    (Z.ltb_spec n 32); try reflexivity; lia.
Qed.

Lemma lor_fixed_iff_land (f m : Z) : Z.lor f m = f <-> Z.land f m = m.
Proof.
  split; intros H; apply Z.bits_inj'; intros n Hn;
    apply (f_equal (fun x => Z.testbit x n)) in H;
    rewrite ?Z.lor_spec, ?Z.land_spec in *;
    destruct (Z.testbit f n), (Z.testbit m n); simpl in *; congruence.
Qed.

Lemma getch_terminal (w : World) :
  terminal (snd (_infuncs.getch w))
  = with_lflag (terminal w)
      (tcflag_t (Z.lor (tcflag_t (Z.lor
         (tcflag_t (Z.land (tcflag_t (Z.land (c_lflag (terminal w))
                                             (Z.lnot ICANON)))
                           (Z.lnot ECHO)))
         ICANON)) ECHO)).
Proof.
  destruct w as [t cf si so se].
  unfold _infuncs.getch, getchar, tcsetattr, tcgetattr, cin_clear_ignore.
  cbn [terminal cin_fail stdin stdout stderr].
  destruct cf; cbn [terminal cin_fail stdin stdout stderr];
    [destruct (after_newline si) | destruct si]; reflexivity.
Qed.

(** What [getch] reads, and what it leaves of the console apart from the
    terminal attributes. *)
Lemma getch_reads (w : World) :
  let r := _infuncs.getch w in
  fst r = match pending_input w with [] => eof_char | c :: _ => c end /\
  stdin (snd r) = tl (pending_input w) /\
  cin_fail (snd r) = false /\
  stdout (snd r) = stdout w /\
  stderr (snd r) = stderr w.
Proof.
  destruct w as [t cf si so se].
  unfold _infuncs.getch, getchar, tcsetattr, tcgetattr, cin_clear_ignore,
    pending_input.
  cbn [terminal cin_fail stdin stdout stderr].
  destruct cf; cbn [terminal cin_fail stdin stdout stderr];
    [destruct (after_newline si) as [|c rest] | destruct si as [|c rest]];
    cbn [fst snd terminal cin_fail stdin stdout stderr tl];
    rewrite ?char_of_int_code; auto.
Qed.

Lemma getch_pending (w : World) :
  pending_input (snd (_infuncs.getch w)) = tl (pending_input w).
Proof.
  destruct (getch_reads w) as (_ & S & C & _).
  unfold pending_input at 1. rewrite C. exact S.
Qed.

(** C5, as the header has it. [getch] does not save the attributes it finds:
    on return, whether or not the read reached end of input, ICANON and ECHO
    are both set and every other attribute is as it was on entry. The
    attributes on return are those on entry exactly when ICANON and ECHO
    were both set on entry. *)
Theorem getch_returns_with_canonical_echo (w : World) :
  (0 <= c_lflag (terminal w) < 2 ^ 32)%Z ->
  terminal (snd (_infuncs.getch w))
  = with_lflag (terminal w)
               (Z.lor (c_lflag (terminal w)) (Z.lor ICANON ECHO)) /\
  (terminal (snd (_infuncs.getch w)) = terminal w <->
   Z.land (c_lflag (terminal w)) (Z.lor ICANON ECHO) = Z.lor ICANON ECHO).
Proof.
  intros R.
  assert (T : terminal (snd (_infuncs.getch w))
              = with_lflag (terminal w)
                  (Z.lor (c_lflag (terminal w)) (Z.lor ICANON ECHO))).
  { rewrite getch_terminal, (lflag_after_getch R). reflexivity. }
  split; [exact T|]. rewrite T.
  rewrite <- lor_fixed_iff_land.
  destruct (terminal w) as [i o c l]. unfold with_lflag.
  cbn [c_iflag c_oflag c_cflag c_lflag].
  split; intros H; [inversion H as [H'] | f_equal]; congruence.
Qed.

Lemma getch_returns_with_canonical_echo_witness :
  (0 <= c_lflag (terminal (console 35387 (lit "y"))) < 2 ^ 32)%Z /\
  terminal (snd (_infuncs.getch (console 35387 (lit "y"))))
  = with_lflag (terminal (console 35387 (lit "y")))
      (Z.lor (c_lflag (terminal (console 35387 (lit "y"))))
             (Z.lor ICANON ECHO)) /\
  (terminal (snd (_infuncs.getch (console 35387 (lit "y"))))
   = terminal (console 35387 (lit "y")) <->
   Z.land (c_lflag (terminal (console 35387 (lit "y")))) (Z.lor ICANON ECHO)
   = Z.lor ICANON ECHO).
Proof.
  assert (R : (0 <= c_lflag (terminal (console 35387 (lit "y"))) < 2 ^ 32)%Z).
  { vm_compute. split; [discriminate | reflexivity]. }
  split; [exact R|].
  exact (getch_returns_with_canonical_echo (console 35387 (lit "y")) R).
Defined.

(** C5 fails as stated: entered with echo and canonical mode off (local
    flags 0), [getch] returns with both switched on. *)
Lemma getch_switches_echo_on :
  c_lflag (terminal (console 0 (lit "y"))) = 0%Z /\
  c_lflag (terminal (snd (_infuncs.getch (console 0 (lit "y"))))) = 10%Z /\
  terminal (snd (_infuncs.getch (console 0 (lit "y"))))
  <> terminal (console 0 (lit "y")).
Proof.
  split; [reflexivity|]. split; [vm_compute; reflexivity|].
  intros H. apply (f_equal c_lflag) in H. vm_compute in H. discriminate.
Qed.

(** ** The line editor *)

Lemma eof_char_kind : eof_char = "255"%char /\ kind eof_char = Other.
Proof. split; reflexivity. Qed.

Lemma kind_tests (c : ascii) :
  ((c =? infuncs.BACKSPACE)%char =
     match kind c with Delete => true | _ => false end) /\
  ((c =? infuncs.NEWLINE)%char =
     match kind c with Confirm => true | _ => false end).
Proof.
  unfold kind.
  destruct (c =? infuncs.BACKSPACE)%char eqn:B.
  - apply Ascii.eqb_eq in B. subst. split; reflexivity.
  - destruct (c =? infuncs.NEWLINE)%char; split; reflexivity.
Qed.

Lemma keystroke_spec (mask : option ascii) (user_input : cstring) (w : World) :
  exists w',
    infuncs.keystroke mask user_input w
    = (fst (_infuncs.getch w), edit user_input (fst (_infuncs.getch w)), w') /\
    stdout w' = stdout w ++ echo mask user_input (fst (_infuncs.getch w)) /\
    pending_input w' = tl (pending_input w) /\
    stdin w' = tl (pending_input w).
Proof.
  unfold infuncs.keystroke.
  pose proof (getch_reads w) as R. pose proof (getch_pending w) as P.
  destruct (_infuncs.getch w) as [c w1]. cbn [fst snd] in *.
  destruct R as (_ & S & _ & O & _).
  unfold edit, echo. destruct (kind_tests c) as [B N]. rewrite B, N.
  destruct (kind c); cbn [negb].
  - destruct user_input as [|x user_input].
    + exists w1. rewrite app_nil_r. auto.
    + eexists. split; [reflexivity|].
      unfold cout, pending_input in *. cbn [stdout stdin cin_fail].
      rewrite O. auto.
  - exists w1. rewrite app_nil_r. auto.
  - eexists. split; [reflexivity|].
    unfold cout, pending_input in *. cbn [stdout stdin cin_fail].
    rewrite O. auto.
Qed.

Lemma next_key (w : World) (c : ascii) (rest : cstring) :
  pending_input w = c :: rest -> fst (_infuncs.getch w) = c.
Proof.
  intros P. destruct (getch_reads w) as (C & _). rewrite C, P. reflexivity.
Qed.

Lemma next_key_at_end (w : World) :
  pending_input w = [] -> fst (_infuncs.getch w) = eof_char.
Proof.
  intros P. destruct (getch_reads w) as (C & _). rewrite C, P. reflexivity.
Qed.

Lemma kind_confirm (c : ascii) : kind c = Confirm <-> c = infuncs.NEWLINE.
Proof.
  unfold kind. split.
  - destruct (c =? infuncs.BACKSPACE)%char; [discriminate|].
    destruct (c =? infuncs.NEWLINE)%char eqn:N; [|discriminate].
    intros _. apply Ascii.eqb_eq. exact N.
  - intros ->. reflexivity.
Qed.

(** The loop leaves with the accumulated string at the first confirm
    keystroke. *)
Lemma loop_until_confirm (mask : option ascii) :
  forall keys user_input w rest bound,
    pending_input w = keys ++ infuncs.NEWLINE :: rest ->
    ~ In infuncs.NEWLINE keys ->
    List.length keys < bound ->
    exists w',
      infuncs.basic_input_loop bound mask user_input w
      = Returned (typed keys user_input) w' /\
      stdin w' = rest.
Proof.
  induction keys as [|k keys IH]; intros user_input w rest bound P N B;
    (destruct bound as [|bound]; [simpl in B; lia|]);
    cbn [infuncs.basic_input_loop];
    destruct (keystroke_spec mask user_input w) as (w1 & K & _ & P1 & S1);
    rewrite K; rewrite P in *; cbn [app tl] in *.
  - rewrite (next_key w P). cbn [negb Ascii.eqb]. 
    change (infuncs.NEWLINE =? infuncs.NEWLINE)%char with true. cbn [negb].
    exists w1. split; [reflexivity | exact S1].
  - rewrite (next_key w P).
    assert (Q : (k =? infuncs.NEWLINE)%char = false).
    { apply Ascii.eqb_neq. intros ->. apply N. left; reflexivity. }
    rewrite Q. cbn [negb].
    apply IH; [exact P1 | | simpl in B; lia].
    intros I. apply N. right; exact I.
Qed.

(** Without a confirm keystroke in the input the loop goes on: at end of
    input every read yields [eof_char], which is appended like any other
    character. *)
Lemma loop_without_confirm (mask : option ascii) :
  forall bound user_input w,
    ~ In infuncs.NEWLINE (pending_input w) ->
    exists w', infuncs.basic_input_loop bound mask user_input w = Pending w'.
Proof.
  induction bound as [|bound IH]; intros user_input w N;
    cbn [infuncs.basic_input_loop].
  - eauto.
  - destruct (keystroke_spec mask user_input w) as (w1 & K & _ & P1 & _).
    rewrite K.
    assert (Q : (fst (_infuncs.getch w) =? infuncs.NEWLINE)%char = false).
    { destruct (pending_input w) as [|c rest] eqn:P.
      - rewrite (next_key_at_end w P). reflexivity.
      - rewrite (next_key w P). apply Ascii.eqb_neq. intros ->.
        apply N. left; reflexivity. }
    rewrite Q. cbn [negb]. apply IH. rewrite P1.
    intros I. apply N. destruct (pending_input w); [exact I | right; exact I].
Qed.

(** C2, as the header has it. At end of input [getch] hands the line editor
    the value of EOF converted to [char], which is neither the confirm nor
    the delete keystroke. A read cycle of [basic_input] ends exactly at the
    first confirm keystroke, returning the string accumulated from the
    keystrokes before it; when the input ends without one, the cycle does
    not end. *)
Theorem basic_input_ends_at_confirm_only (mask : option ascii) (w : World) :
  (pending_input w = [] ->
   fst (_infuncs.getch w) = eof_char /\ kind eof_char = Other) /\
  (forall keys rest bound,
     pending_input w = keys ++ infuncs.NEWLINE :: rest ->
     ~ In infuncs.NEWLINE keys ->
     List.length keys < bound ->
     exists w',
       infuncs.basic_input bound mask w = Returned (typed keys []) w' /\
       stdin w' = rest) /\
  (~ In infuncs.NEWLINE (pending_input w) ->
   forall bound, exists w', infuncs.basic_input bound mask w = Pending w').
Proof.
  split; [|split].
  - intros P. split; [apply next_key_at_end; exact P | reflexivity].
  - intros keys rest bound P N B. unfold infuncs.basic_input.
    eapply loop_until_confirm; eassumption.
  - intros N bound. unfold infuncs.basic_input.
    apply loop_without_confirm. exact N.
Qed.

(** C2 fails as stated: with the input ab followed by end of input, the
    read at end of input does not yield the confirm keystroke and
    [basic_input] never returns. *)
Lemma basic_input_never_returns_at_end_of_input :
  fst (_infuncs.getch (console 35387 [])) <> infuncs.NEWLINE /\
  forall bound s w',
    infuncs.basic_input bound None (console 35387 (lit "ab"))
    <> Returned s w'.
Proof.
  split; [vm_compute; discriminate|].
  intros bound s w' H.
  destruct (@loop_without_confirm None bound []
              (console 35387 (lit "ab"))) as (w1 & E).
  - simpl. intros [H1|[H1|[]]]; discriminate.
  - unfold infuncs.basic_input in H. congruence.
Qed.

(** ** Masked input *)

Lemma pop_back_length (s : cstring) :
  List.length (infuncs.pop_back s) = pred (List.length s).
Proof.
  unfold infuncs.pop_back.
  induction s as [|c s IH]; [reflexivity|].
  destruct s as [|d s]; [reflexivity|].
  cbn [removelast List.length] in *. rewrite IH. reflexivity.
Qed.

Lemma edit_length (u1 u2 : cstring) (c1 c2 : ascii) :
  List.length u1 = List.length u2 -> kind c1 = kind c2 ->
  List.length (edit u1 c1) = List.length (edit u2 c2).
Proof.
  intros L K. unfold edit. rewrite K. destruct (kind c2).
  - rewrite !pop_back_length. congruence.
  - exact L.
  - rewrite !length_app. simpl. congruence.
Qed.

Lemma echo_masked (m : ascii) (u1 u2 : cstring) (c1 c2 : ascii) :
  List.length u1 = List.length u2 -> kind c1 = kind c2 ->
  echo (Some m) u1 c1 = echo (Some m) u2 c2.
Proof.
  intros L K. unfold echo. rewrite K. destruct (kind c2); try reflexivity.
  destruct u1, u2; simpl in L; try discriminate; reflexivity.
Qed.

Lemma echo_masked_alphabet (m : ascii) (u : cstring) (c : ascii) :
  Forall (fun x => x = m \/ x = infuncs.CURSOR_BACK \/ x = " "%char)
         (echo (Some m) u c).
Proof.
  unfold echo, infuncs.CURSOR_BACK.
  destruct (kind c); [destruct u|..];
    repeat (constructor; [tauto|]); constructor.
Qed.

Lemma next_key_kind (w1 w2 : World) :
  map kind (pending_input w1) = map kind (pending_input w2) ->
  kind (fst (_infuncs.getch w1)) = kind (fst (_infuncs.getch w2)) /\
  map kind (tl (pending_input w1)) = map kind (tl (pending_input w2)).
Proof.
  intros K.
  destruct (getch_reads w1) as (C1 & _). destruct (getch_reads w2) as (C2 & _).
  rewrite C1, C2.
  destruct (pending_input w1), (pending_input w2); simpl in K;
    try discriminate; [auto|].
  inversion K. auto.
Qed.

(** Two masked runs over inputs of the same shape write the same text and
    leave the loop at the same keystroke. *)
Lemma masked_loop_same_display (m : ascii) :
  forall bound u1 u2 w1 w2,
    List.length u1 = List.length u2 ->
    map kind (pending_input w1) = map kind (pending_input w2) ->
    stdout w1 = stdout w2 ->
    stdout (world_of (infuncs.basic_input_loop bound (Some m) u1 w1))
    = stdout (world_of (infuncs.basic_input_loop bound (Some m) u2 w2)) /\
    finished (infuncs.basic_input_loop bound (Some m) u1 w1)
    = finished (infuncs.basic_input_loop bound (Some m) u2 w2).
Proof.
  induction bound as [|bound IH]; intros u1 u2 w1 w2 L K O;
    cbn [infuncs.basic_input_loop].
  - auto.
  - destruct (keystroke_spec (Some m) u1 w1) as (w1' & K1 & O1 & P1 & _).
    destruct (keystroke_spec (Some m) u2 w2) as (w2' & K2 & O2 & P2 & _).
    rewrite K1, K2.
    destruct (next_key_kind w1 w2 K) as [Kc Kt].
    assert (O' : stdout w1' = stdout w2').
    { rewrite O1, O2, O. f_equal. apply echo_masked; assumption. }
    rewrite (proj2 (kind_tests (fst (_infuncs.getch w1)))).
    rewrite (proj2 (kind_tests (fst (_infuncs.getch w2)))).
    rewrite Kc.
    assert (L' : List.length (edit u1 (fst (_infuncs.getch w1)))
                 = List.length (edit u2 (fst (_infuncs.getch w2)))).
    { apply edit_length; assumption. }
    destruct (kind (fst (_infuncs.getch w2))); cbn [negb];
      try (apply IH; [exact L' | congruence | exact O']).
    simpl. auto.
Qed.

Lemma masked_loop_alphabet (m : ascii) :
  forall bound u w,
    exists out,
      stdout (world_of (infuncs.basic_input_loop bound (Some m) u w))
      = stdout w ++ out /\
      Forall (fun x => x = m \/ x = infuncs.CURSOR_BACK \/ x = " "%char) out.
Proof.
  induction bound as [|bound IH]; intros u w; cbn [infuncs.basic_input_loop].
  - exists []. rewrite app_nil_r. auto.
  - destruct (keystroke_spec (Some m) u w) as (w' & K & O & _).
    rewrite K.
    destruct (negb (fst (_infuncs.getch w) =? infuncs.NEWLINE)%char).
    + destruct (IH (edit u (fst (_infuncs.getch w))) w') as (out & E & F).
      exists (echo (Some m) u (fst (_infuncs.getch w)) ++ out).
      rewrite E, O, app_assoc. split; [reflexivity|].
      apply Forall_app. split; [apply echo_masked_alphabet | exact F].
    + exists (echo (Some m) u (fst (_infuncs.getch w))).
      split; [exact O | apply echo_masked_alphabet].
Qed.

(** C9. In Masked mode everything [basic_input] writes is made of the mask
    glyph and of the erase sequence (cursor back, space, cursor back); and
    two runs whose inputs have the delete and confirm keystrokes at the
    same positions, whatever the other characters, write the same text, at
    every point of the run. *)
Theorem masked_input_displays_only_the_mask
    (bound : nat) (w1 w2 : World) :
  map kind (pending_input w1) = map kind (pending_input w2) ->
  stdout w1 = stdout w2 ->
  stdout (world_of (infuncs.basic_input bound (Some INPUT_MASK) w1))
  = stdout (world_of (infuncs.basic_input bound (Some INPUT_MASK) w2)) /\
  finished (infuncs.basic_input bound (Some INPUT_MASK) w1)
  = finished (infuncs.basic_input bound (Some INPUT_MASK) w2) /\
  exists out,
    stdout (world_of (infuncs.basic_input bound (Some INPUT_MASK) w1))
    = stdout w1 ++ out /\
    Forall (fun x => x = INPUT_MASK \/ x = infuncs.CURSOR_BACK \/ x = " "%char)
           out.
Proof.
  intros K O. unfold infuncs.basic_input.
  destruct (@masked_loop_same_display INPUT_MASK bound [] [] w1 w2
              eq_refl K O) as [D F].
  split; [exact D|]. split; [exact F|].
  apply masked_loop_alphabet.
Qed.

Lemma masked_input_displays_only_the_mask_witness :
  map kind (pending_input (console 35387 (lit "ab" ++ ["127"%char] ++ lit "c" ++ ["010"%char])))
  = map kind (pending_input (console 35387 (lit "xy" ++ ["127"%char] ++ lit "z" ++ ["010"%char]))) /\
  stdout (world_of (infuncs.basic_input 9 (Some INPUT_MASK)
            (console 35387 (lit "ab" ++ ["127"%char] ++ lit "c" ++ ["010"%char]))))
  = stdout (world_of (infuncs.basic_input 9 (Some INPUT_MASK)
            (console 35387 (lit "xy" ++ ["127"%char] ++ lit "z" ++ ["010"%char])))).
Proof.
  assert (K : map kind (pending_input (console 35387 (lit "ab" ++ ["127"%char] ++ lit "c" ++ ["010"%char])))
              = map kind (pending_input (console 35387 (lit "xy" ++ ["127"%char] ++ lit "z" ++ ["010"%char])))).
  { reflexivity. }
  split; [exact K|].
  exact (proj1 (masked_input_displays_only_the_mask 9 _ _ K eq_refl)).
Defined.

(** The two runs of the witness: both display ** erase *; the strings
    returned differ. *)
Example masked_runs :
  infuncs.basic_input 9 (Some INPUT_MASK)
    (console 35387 (lit "ab" ++ ["127"%char] ++ lit "c" ++ ["010"%char]))
  = Returned (lit "ac")
      {| terminal := terminal (console 35387 []); cin_fail := false;
         stdin := [];
         stdout := lit "**" ++ ["008"; " "; "008"]%char ++ lit "*";
         stderr := [] |} /\
  infuncs.basic_input 9 None
    (console 35387 (lit "xy" ++ ["127"%char] ++ lit "z" ++ ["010"%char]))
  = Returned (lit "xz")
      {| terminal := terminal (console 35387 []); cin_fail := false;
         stdin := [];
         stdout := lit "xy" ++ ["008"; " "; "008"]%char ++ lit "z";
         stderr := [] |}.
Proof. split; vm_compute; reflexivity. Qed.

(** ** Runs of the validation loop and of [any] *)

(** The user types x, confirm, 5, confirm; the only check is range(1, 10).
    The first attempt is reported on standard error, the second returns. *)
Lemma validate_returns_accepted_input_witness :
  validate 9 (infuncs.basic_input 9 None) [checks.range (T := int) 1%Z 10%Z]
    (console 35387 (lit "x" ++ endl ++ lit "5" ++ endl))
  = Returned (lit "5")
      (world_of
         (validate 9 (infuncs.basic_input 9 None)
            [checks.range (T := int) 1%Z 10%Z]
            (console 35387 (lit "x" ++ endl ++ lit "5" ++ endl)))) /\
  Forall (accepted (lit "5")) [checks.range (T := int) 1%Z 10%Z].
Proof.
  assert (R : validate 9 (infuncs.basic_input 9 None)
                [checks.range (T := int) 1%Z 10%Z]
                (console 35387 (lit "x" ++ endl ++ lit "5" ++ endl))
              = Returned (lit "5")
                  (world_of
                     (validate 9 (infuncs.basic_input 9 None)
                        [checks.range (T := int) 1%Z 10%Z]
                        (console 35387 (lit "x" ++ endl ++ lit "5" ++ endl))))).
  { vm_compute. reflexivity. }
  split; [exact R|].
  exact (proj1 (validate_returns_accepted_input _ _ _ _ R)).
Defined.

Example validate_run :
  let r := validate 9 (infuncs.basic_input 9 None)
             [checks.range (T := int) 1%Z 10%Z]
             (console 35387 (lit "x" ++ endl ++ lit "5" ++ endl)) in
  stdout (world_of r) = lit "x" ++ endl ++ lit "5" ++ endl /\
  stderr (world_of r) = INVALID_INPUT_PROMPT ++ endl /\
  finished r = true.
Proof. repeat split; vm_compute; reflexivity. Qed.

Lemma any_accepts_iff_some_check_accepts_witness :
  checks.wrappers.any [checks.is_ false [lit "y"]; checks.is_ false [lit "n"]]
  = Some (fun user_input =>
            fst (checks.wrappers.any_run
                   [checks.is_ false [lit "y"]; checks.is_ false [lit "n"]]
                   user_input)) /\
  (accepted (lit "N")
     (fun user_input =>
        fst (checks.wrappers.any_run
               [checks.is_ false [lit "y"]; checks.is_ false [lit "n"]]
               user_input)) <->
   Exists (accepted (lit "N"))
     [checks.is_ false [lit "y"]; checks.is_ false [lit "n"]]).
Proof.
  split; [reflexivity|].
  exact (proj1 (any_accepts_iff_some_check_accepts
                  [checks.is_ false [lit "y"]; checks.is_ false [lit "n"]]
                  (lit "N") eq_refl)).
Defined.

Example any_run_stops_at_first_acceptance :
  checks.wrappers.any_run
    [checks.is_ false [lit "y"]; checks.is_ false [lit "n"];
     checks.is_ true [lit "N"]] (lit "N")
  = (Accept, 2).
Proof. vm_compute. reflexivity. Qed.


(** * Further properties *)

(** ** Wrappers and their composition *)

Lemma c_str_whole (s : cstring) : ~ In "000"%char s -> c_str s = s.
Proof.
  induction s as [|c s IH]; intros N; [reflexivity|].
  cbn [c_str].
  destruct (c =? "000")%char eqn:E.
  - apply Ascii.eqb_eq in E. subst. exfalso. apply N. left; reflexivity.
  - rewrite IH; [reflexivity|]. intros I. apply N. right; exact I.
Qed.

(** X1. [custom] keeps the verdict of the wrapped check and replaces the
    message of every rejection by the one given, read as a C string: whole
    when it contains no NUL, cut before the first NUL otherwise. Wrapping
    twice keeps the outer message only. *)
Theorem custom_replaces_the_message
    (check : Check) (error_message outer : cstring) (s : cstring) :
  (accepted s (checks.wrappers.custom check error_message) <->
   accepted s check) /\
  (rejected s check ->
   checks.wrappers.custom check error_message s
   = InvalidInput (c_str error_message)) /\
  (~ In "000"%char error_message -> c_str error_message = error_message) /\
  checks.wrappers.custom (checks.wrappers.custom check error_message) outer s
  = checks.wrappers.custom check outer s.
Proof.
  unfold accepted, rejected, checks.wrappers.custom.
  destruct (check s) as [|what]; repeat split;
    try congruence; try apply c_str_whole.
  intros [m E]. discriminate.
Qed.

Example custom_message_with_nul :
  checks.wrappers.custom (checks.is_ true []) (lit "ab" ++ ["000"%char] ++ lit "cd")
    (lit "x")
  = InvalidInput (lit "ab").
Proof. reflexivity. Qed.

(** X2. Inverting twice gives back the verdict of the check but not its
    message: [inverse (inverse check)] behaves as [custom check] with the
    default message. *)
Theorem inverse_twice_is_custom_default (check : Check) (s : cstring) :
  checks.wrappers.inverse (checks.wrappers.inverse check) s
  = checks.wrappers.custom check INVALID_INPUT_PROMPT s.
Proof.
  unfold checks.wrappers.inverse, checks.wrappers.custom.
  destruct (check s); reflexivity.
Qed.

(** X3. The inverse of [any] accepts exactly the candidates that every wrapped
    check rejects; and a custom message on a wrapped check does not change
    what [inverse] or [any] accept. *)
Theorem inverse_of_any_accepts_when_all_reject
    (checks : list Check) (check : Check) (s : cstring) :
  checks.wrappers.any checks = Some check ->
  (accepted s (checks.wrappers.inverse check) <->
   Forall (rejected s) checks) /\
  (forall message,
     checks.wrappers.inverse (checks.wrappers.custom check message) s
     = checks.wrappers.inverse check s).
Proof.
  intros H. apply any_some in H. subst check. split.
  - unfold accepted, checks.wrappers.inverse. split.
    + intros A. rewrite Forall_forall. intros c I.
      apply rejected_not_accepted. intros Ac.
      assert (E : Exists (accepted s) checks) by (apply Exists_exists; eauto).
      apply any_run_accept in E. rewrite E in A. discriminate.
    + intros R. rewrite (any_run_all_rejected R). reflexivity.
  - intros message. unfold checks.wrappers.inverse, checks.wrappers.custom.
    destruct (fst (checks.wrappers.any_run checks s)); reflexivity.
Qed.

Lemma inverse_of_any_accepts_when_all_reject_witness :
  checks.wrappers.any [checks.is_ false [lit "y"]; checks.is_ false [lit "n"]]
  = Some (fun user_input =>
            fst (checks.wrappers.any_run
                   [checks.is_ false [lit "y"]; checks.is_ false [lit "n"]]
                   user_input)) /\
  (accepted (lit "q")
     (checks.wrappers.inverse
        (fun user_input =>
           fst (checks.wrappers.any_run
                  [checks.is_ false [lit "y"]; checks.is_ false [lit "n"]]
                  user_input))) <->
   Forall (rejected (lit "q"))
     [checks.is_ false [lit "y"]; checks.is_ false [lit "n"]]).
Proof.
  split; [reflexivity|].
  exact (proj1 (inverse_of_any_accepts_when_all_reject
                  [checks.is_ false [lit "y"]; checks.is_ false [lit "n"]]
                  (lit "q") eq_refl)).
Defined.

(** ** Comparison with given strings *)

Lemma toupper_idempotent (c : ascii) : toupper (toupper c) = toupper c.
Proof.
  destruct c as [[] [] [] [] [] [] [] []]; reflexivity.
Qed.

Lemma cstring_eqb_eq (a b : cstring) : checks.cstring_eqb a b = true <-> a = b.
Proof.
  unfold checks.cstring_eqb.
  destruct (list_eq_dec ascii_dec a b); split; congruence.
Qed.

(** X4. [is] compares the candidate with each of the given strings: as they are
    when case matters, after upper-casing both sides when it does not. It
    rejects with the default message otherwise, in particular whenever no
    string is given; and without case the verdict does not change when the
    candidate is upper-cased. *)
Theorem is_accepts_the_given_strings
    (strings : list cstring) (s : cstring) :
  (accepted s (checks.is_ true strings) <-> In s strings) /\
  (accepted s (checks.is_ false strings) <->
   exists t, In t strings /\ map toupper s = map toupper t) /\
  (forall case_sensitive,
     rejected s (checks.is_ case_sensitive strings) ->
     checks.is_ case_sensitive strings s = InvalidInput INVALID_INPUT_PROMPT) /\
  (forall case_sensitive, rejected s (checks.is_ case_sensitive [])) /\
  checks.is_ false strings (map toupper s) = checks.is_ false strings s.
Proof.
  unfold accepted, rejected, checks.is_.
  split; [|split; [|split; [|split]]].
  - cbn [negb].
    destruct (existsb (checks.cstring_eqb s) strings) eqn:E.
    + split; [intros _|reflexivity].
      apply existsb_exists in E. destruct E as (t & I & Q).
      apply cstring_eqb_eq in Q. subst. exact I.
    + split; [discriminate|]. intros I.
      assert (E' : existsb (checks.cstring_eqb s) strings = true).
      { apply existsb_exists. exists s. split; [exact I|].
        apply cstring_eqb_eq. reflexivity. }
      congruence.
  - cbn [negb].
    destruct (existsb (checks.cstring_eqb (map toupper s))
                      (map (map toupper) strings)) eqn:E.
    + split; [intros _|reflexivity].
      apply existsb_exists in E. destruct E as (u & I & Q).
      apply cstring_eqb_eq in Q. apply in_map_iff in I.
      destruct I as (t & <- & I). eauto.
    + split; [discriminate|]. intros (t & I & Q).
      assert (E' : existsb (checks.cstring_eqb (map toupper s))
                           (map (map toupper) strings) = true).
      { apply existsb_exists. exists (map toupper t). split.
        - apply in_map. exact I.
        - apply cstring_eqb_eq. exact Q. }
      congruence.
  - intros case_sensitive [what R].
    destruct (existsb _ _); [discriminate | reflexivity].
  - intros case_sensitive. destruct case_sensitive; cbn; eauto.
  - cbn [negb]. rewrite map_map.
    rewrite (map_ext (fun c => toupper (toupper c)) toupper
                     toupper_idempotent). reflexivity.
Qed.

(** ** The raw reader and the instant editor *)

(** X5. [getch] consumes exactly one pending byte, or none at end of input where
    it yields [eof_char]; it writes nothing and leaves std::cin without a
    failure flag. When std::cin had failed, the rest of the current line is
    discarded and the byte read is the first one after it. *)
Theorem getch_consumes_one_key (w : World) :
  (forall c rest,
     pending_input w = c :: rest ->
     fst (_infuncs.getch w) = c /\ stdin (snd (_infuncs.getch w)) = rest) /\
  (pending_input w = [] ->
   fst (_infuncs.getch w) = eof_char /\ stdin (snd (_infuncs.getch w)) = []) /\
  (cin_fail w = true -> pending_input w = after_newline (stdin w)) /\
  (cin_fail w = false -> pending_input w = stdin w) /\
  cin_fail (snd (_infuncs.getch w)) = false /\
  stdout (snd (_infuncs.getch w)) = stdout w /\
  stderr (snd (_infuncs.getch w)) = stderr w.
Proof.
  destruct (getch_reads w) as (C & S & F & O & E).
  split; [|split; [|split; [|split]]]; auto.
  - intros c rest P. rewrite C, S, P. auto.
  - intros P. rewrite C, S, P. auto.
  - intros Q. unfold pending_input. rewrite Q. reflexivity.
  - intros Q. unfold pending_input. rewrite Q. reflexivity.
Qed.

(** X6. [instant_input] always returns after one read: the string is the single
    character read, what is displayed is that character upper-cased, and
    one pending byte is consumed. At end of input the character is
    [eof_char]. *)
Theorem instant_input_reads_one_key (w : World) :
  exists c w',
    infuncs.instant_input w = Returned [c] w' /\
    c = match pending_input w with [] => eof_char | k :: _ => k end /\
    stdout w' = stdout w ++ [toupper c] /\
    stdin w' = tl (pending_input w) /\
    stderr w' = stderr w.
Proof.
  unfold infuncs.instant_input.
  destruct (getch_reads w) as (C & S & F & O & E).
  destruct (_infuncs.getch w) as [c w1]. cbn [fst snd] in *.
  exists c. eexists. split; [reflexivity|].
  unfold cout. cbn [stdout stdin stderr]. rewrite O. auto.
Qed.

(** ** The line editor, keystroke by keystroke *)

Lemma keystroke_full (mask : option ascii) (user_input : cstring) (w : World) :
  exists w',
    infuncs.keystroke mask user_input w
    = (fst (_infuncs.getch w), edit user_input (fst (_infuncs.getch w)), w') /\
    stdout w' = stdout w ++ echo mask user_input (fst (_infuncs.getch w)) /\
    stdin w' = tl (pending_input w) /\
    cin_fail w' = false /\
    stderr w' = stderr w.
Proof.
  unfold infuncs.keystroke.
  pose proof (getch_reads w) as R.
  destruct (_infuncs.getch w) as [c w1]. cbn [fst snd] in *.
  destruct R as (_ & S & F & O & E).
  unfold edit, echo. destruct (kind_tests c) as [B N]. rewrite B, N.
  destruct (kind c); cbn [negb].
  - destruct user_input as [|x user_input].
    + exists w1. rewrite app_nil_r. auto.
    + eexists. split; [reflexivity|].
      unfold cout. cbn [stdout stdin cin_fail stderr]. rewrite O. auto.
  - exists w1. rewrite app_nil_r. auto.
  - eexists. split; [reflexivity|].
    unfold cout. cbn [stdout stdin cin_fail stderr]. rewrite O. auto.
Qed.

(** Up to the first confirm keystroke the loop folds the keystrokes into the
    accumulator and writes their echo. *)
Lemma loop_follows_keystrokes (mask : option ascii) :
  forall keys user_input w rest bound,
    pending_input w = keys ++ infuncs.NEWLINE :: rest ->
    ~ In infuncs.NEWLINE keys ->
    List.length keys < bound ->
    exists w',
      infuncs.basic_input_loop bound mask user_input w
      = Returned (typed keys user_input) w' /\
      stdin w' = rest /\
      cin_fail w' = false /\
      stdout w' = stdout w ++ shown mask keys user_input /\
      stderr w' = stderr w.
Proof.
  induction keys as [|k keys IH]; intros user_input w rest bound P N B;
    (destruct bound as [|bound]; [simpl in B; lia|]);
    cbn [infuncs.basic_input_loop];
    destruct (keystroke_full mask user_input w) as (w1 & K & O1 & S1 & F1 & E1);
    rewrite K; rewrite P in *; cbn [app tl] in *;
    rewrite (next_key w P) in *.
  - change (infuncs.NEWLINE =? infuncs.NEWLINE)%char with true. cbn [negb].
    exists w1. cbn [typed fold_left shown].
    change (echo mask user_input infuncs.NEWLINE) with (@nil ascii) in O1.
    rewrite app_nil_r in *. auto.
  - assert (Q : (k =? infuncs.NEWLINE)%char = false).
    { apply Ascii.eqb_neq. intros ->. apply N. left; reflexivity. }
    rewrite Q. cbn [negb].
    destruct (IH (edit user_input k) w1 rest bound) as (w' & R & S & F & O & E).
    + unfold pending_input. rewrite F1. exact S1.
    + intros I. apply N. right; exact I.
    + simpl in B. lia.
    + exists w'. cbn [typed fold_left shown] in *. rewrite R, O, O1, E, E1.
      rewrite app_assoc. auto.
Qed.

Lemma edit_plain_key (user_input : cstring) (c : ascii) :
  kind c = Other -> edit user_input c = user_input ++ [c].
Proof. intros K. unfold edit. rewrite K. reflexivity. Qed.

Lemma typed_plain (line : cstring) :
  plain line -> forall user_input, typed line user_input = user_input ++ line.
Proof.
  induction 1 as [|c line K _ IH]; intros user_input; cbn [typed fold_left].
  - rewrite app_nil_r. reflexivity.
  - rewrite (@edit_plain_key user_input c K).
    change (fold_left edit line (user_input ++ [c]))
      with (typed line (user_input ++ [c])).
    rewrite IH, <- app_assoc. reflexivity.
Qed.

Lemma shown_plain (mask : option ascii) (line : cstring) :
  plain line ->
  forall user_input, shown mask line user_input = echo_line mask line.
Proof.
  induction 1 as [|c line K _ IH]; intros user_input; cbn [shown echo_line map].
  - reflexivity.
  - rewrite IH. unfold echo. rewrite K. reflexivity.
Qed.

Lemma plain_no_confirm (line : cstring) :
  plain line -> ~ In infuncs.NEWLINE line.
Proof.
  intros P I. unfold plain in P. rewrite Forall_forall in P.
  specialize (P _ I). discriminate.
Qed.

Lemma typed_app (a b : list ascii) (user_input : cstring) :
  typed (a ++ b) user_input = typed b (typed a user_input).
Proof. unfold typed. apply fold_left_app. Qed.

Lemma shown_app (mask : option ascii) (a b : list ascii) :
  forall user_input,
    shown mask (a ++ b) user_input
    = shown mask a user_input ++ shown mask b (typed a user_input).
Proof.
  induction a as [|k a IH]; intros user_input; cbn [app shown typed fold_left].
  - reflexivity.
  - rewrite IH, app_assoc. reflexivity.
Qed.

Lemma deletes_clear (mask : option ascii) :
  forall n user_input,
    List.length user_input <= n ->
    typed (repeat infuncs.BACKSPACE n) user_input = [] /\
    shown mask (repeat infuncs.BACKSPACE n) user_input
    = List.concat (repeat erase (List.length user_input)).
Proof.
  induction n as [|n IH]; intros user_input L.
  - destruct user_input; [split; reflexivity | simpl in L; lia].
  - cbn [repeat typed fold_left shown].
    change (edit user_input infuncs.BACKSPACE)
      with (infuncs.pop_back user_input).
    change (fold_left edit (repeat infuncs.BACKSPACE n)
                      (infuncs.pop_back user_input))
      with (typed (repeat infuncs.BACKSPACE n) (infuncs.pop_back user_input)).
    destruct (IH (infuncs.pop_back user_input)) as [T S].
    { rewrite pop_back_length. lia. }
    split; [exact T|]. rewrite S, pop_back_length.
    destruct user_input as [|c user_input]; reflexivity.
Qed.

(** X7. In either line style, a line of ordinary characters followed by the
    confirm keystroke is returned as typed; it is echoed as typed in Basic
    mode and as one mask glyph per character in Masked mode. The read stops
    right after the confirm keystroke and nothing goes to standard error. *)
Theorem basic_input_returns_the_line_typed
    (mask : option ascii) (line rest : cstring) (w : World) (bound : nat) :
  plain line ->
  pending_input w = line ++ infuncs.NEWLINE :: rest ->
  List.length line < bound ->
  exists w',
    infuncs.basic_input bound mask w = Returned line w' /\
    stdin w' = rest /\
    stdout w' = stdout w ++ echo_line mask line /\
    stderr w' = stderr w.
Proof.
  intros P I B. unfold infuncs.basic_input.
  destruct (@loop_follows_keystrokes mask line [] w rest bound I
              (plain_no_confirm P) B) as (w' & R & S & F & O & E).
  exists w'. rewrite R, (typed_plain P), O, (shown_plain mask P). auto.
Qed.

Lemma basic_input_returns_the_line_typed_witness :
  plain (lit "secret") /\
  exists w',
    infuncs.basic_input 7 (Some INPUT_MASK)
      (console 35387 (lit "secret" ++ infuncs.NEWLINE :: lit "more"))
    = Returned (lit "secret") w' /\
    stdin w' = lit "more" /\
    stdout w' = stdout (console 35387 (lit "secret" ++ infuncs.NEWLINE :: lit "more"))
                ++ echo_line (Some INPUT_MASK) (lit "secret") /\
    stderr w' = stderr (console 35387 (lit "secret" ++ infuncs.NEWLINE :: lit "more")).
Proof.
  assert (P : plain (lit "secret")).
  { repeat constructor. }
  split; [exact P|].
  apply (@basic_input_returns_the_line_typed (Some INPUT_MASK) (lit "secret")
           (lit "more") (console 35387 (lit "secret" ++ infuncs.NEWLINE :: lit "more"))
           7 P eq_refl).
  repeat constructor.
Defined.

(** X8. Delete keystrokes, at least as many as characters typed, leave the
    empty string: each of the first ones erases one glyph, the ones pressed
    on the empty accumulator change nothing and write nothing. *)
Theorem basic_input_deletes_clear_the_line
    (mask : option ascii) (line rest : cstring) (n : nat) (w : World)
    (bound : nat) :
  plain line ->
  List.length line <= n ->
  pending_input w
  = line ++ repeat infuncs.BACKSPACE n ++ infuncs.NEWLINE :: rest ->
  List.length line + n < bound ->
  exists w',
    infuncs.basic_input bound mask w = Returned [] w' /\
    stdin w' = rest /\
    stdout w' = stdout w ++ echo_line mask line
                ++ List.concat (repeat erase (List.length line)).
Proof.
  intros P L I B. unfold infuncs.basic_input.
  rewrite app_assoc in I.
  destruct (@loop_follows_keystrokes mask (line ++ repeat infuncs.BACKSPACE n)
              [] w rest bound I) as (w' & R & S & F & O & E).
  - intros J. apply in_app_or in J. destruct J as [J|J].
    + exact (plain_no_confirm P J).
    + apply repeat_spec in J. discriminate.
  - rewrite length_app, repeat_length. exact B.
  - exists w'. rewrite R, O, typed_app, shown_app, (typed_plain P).
    cbn [app]. destruct (@deletes_clear mask n line L) as [T D].
    rewrite T, D, (shown_plain mask P). auto.
Qed.

Lemma basic_input_deletes_clear_the_line_witness :
  plain (lit "ab") /\
  exists w',
    infuncs.basic_input 9 None
      (console 35387 (lit "ab" ++ repeat infuncs.BACKSPACE 3
                      ++ infuncs.NEWLINE :: []))
    = Returned [] w' /\
    stdin w' = [] /\
    stdout w' = stdout (console 35387 (lit "ab" ++ repeat infuncs.BACKSPACE 3
                                       ++ infuncs.NEWLINE :: []))
                ++ echo_line None (lit "ab")
                ++ List.concat (repeat erase (List.length (lit "ab"))).
Proof.
  assert (P : plain (lit "ab")).
  { repeat constructor. }
  split; [exact P|].
  apply (@basic_input_deletes_clear_the_line None (lit "ab") [] 3
           (console 35387 (lit "ab" ++ repeat infuncs.BACKSPACE 3
                           ++ infuncs.NEWLINE :: []))
           9 P); [repeat constructor | reflexivity | repeat constructor].
Defined.

Lemma plain_pop_back (s : cstring) : plain s -> plain (infuncs.pop_back s).
Proof.
  unfold plain, infuncs.pop_back.
  induction 1 as [|c s K F IH]; [constructor|].
  destruct s as [|d s]; [constructor|].
  cbn [removelast]. constructor; [exact K | exact IH].
Qed.

Lemma plain_edit (s : cstring) (c : ascii) : plain s -> plain (edit s c).
Proof.
  intros P. unfold edit. destruct (kind c) eqn:K.
  - apply plain_pop_back. exact P.
  - exact P.
  - apply Forall_app. split; [exact P | repeat constructor; exact K].
Qed.

Lemma loop_keeps_plain (mask : option ascii) :
  forall bound user_input w s w',
    plain user_input ->
    infuncs.basic_input_loop bound mask user_input w = Returned s w' ->
    plain s /\ List.length s < List.length user_input + bound.
Proof.
  induction bound as [|bound IH]; intros user_input w s w' P R;
    cbn [infuncs.basic_input_loop] in R.
  - discriminate.
  - destruct (keystroke_full mask user_input w) as (w1 & K & _).
    rewrite K in R.
    set (c := fst (_infuncs.getch w)) in *.
    assert (L : List.length (edit user_input c) <= S (List.length user_input)).
    { unfold edit. destruct (kind c).
      - rewrite pop_back_length. lia.
      - lia.
      - rewrite length_app. simpl. lia. }
    destruct (kind_tests c) as [_ N]. rewrite N in R.
    destruct (kind c) eqn:Kc; cbn [negb] in R.
    + apply IH in R; [|apply plain_edit; exact P].
      destruct R as [Ps Ls]. split; [exact Ps | lia].
    + inversion R; subst. split; [apply plain_edit; exact P|].
      unfold edit. rewrite Kc. lia.
    + apply IH in R; [|apply plain_edit; exact P].
      destruct R as [Ps Ls]. split; [exact Ps | lia].
Qed.

(** X9. Whatever is typed, the string that [basic_input] returns contains
    neither the confirm nor the delete keystroke, and it is shorter than
    the number of keystrokes read. *)
Theorem basic_input_result_has_no_control_keys
    (bound : nat) (mask : option ascii) (w : World) (s : cstring) (w' : World) :
  infuncs.basic_input bound mask w = Returned s w' ->
  ~ In infuncs.NEWLINE s /\ ~ In infuncs.BACKSPACE s /\
  List.length s < bound.
Proof.
  unfold infuncs.basic_input. intros R.
  apply loop_keeps_plain in R; [|constructor].
  destruct R as [P L]. unfold plain in P. rewrite Forall_forall in P.
  repeat split; [| |exact L]; intros I; specialize (P _ I); discriminate.
Qed.

Lemma basic_input_result_has_no_control_keys_witness :
  infuncs.basic_input 9 None
    (console 35387 (lit "ab" ++ [infuncs.BACKSPACE] ++ lit "c"
                    ++ [infuncs.NEWLINE]))
  = Returned (lit "ac")
      (world_of (infuncs.basic_input 9 None
         (console 35387 (lit "ab" ++ [infuncs.BACKSPACE] ++ lit "c"
                         ++ [infuncs.NEWLINE])))) /\
  ~ In infuncs.NEWLINE (lit "ac") /\ ~ In infuncs.BACKSPACE (lit "ac") /\
  List.length (lit "ac") < 9.
Proof.
  assert (R : infuncs.basic_input 9 None
                (console 35387 (lit "ab" ++ [infuncs.BACKSPACE] ++ lit "c"
                                ++ [infuncs.NEWLINE]))
              = Returned (lit "ac")
                  (world_of (infuncs.basic_input 9 None
                     (console 35387 (lit "ab" ++ [infuncs.BACKSPACE] ++ lit "c"
                                     ++ [infuncs.NEWLINE]))))).
  { vm_compute. reflexivity. }
  split; [exact R|].
  exact (basic_input_result_has_no_control_keys _ _ _ R).
Defined.

(** ** Sessions: attempts that fail, then one that passes *)

Section Session.

(** An input function that, on each call, takes the keys of the next item
    from the pending input, returns its value and displays [prefix] followed
    by its echo. *)
Variable item : Type.
Variables keys_of value_of display_of : item -> cstring.
Variable ok : item -> Prop.
Variable input_function : InputFunction.
Variable prefix : cstring.
Variable checks : list Check.

Hypothesis reads_item :
  forall w a rest,
    ok a ->
    pending_input w = keys_of a ++ rest ->
    exists w',
      input_function w = Returned (value_of a) w' /\
      stdin w' = rest /\ cin_fail w' = false /\
      stdout w' = stdout w ++ prefix ++ display_of a /\
      stderr w' = stderr w.

Lemma validate_loop_session :
  forall (attempts : list (item * cstring)) (final : item) (rest : cstring)
         (w : World) (bound : nat),
    Forall (fun a => ok (fst a) /\
                     first_failure checks (value_of (fst a)) = Some (snd a))
           attempts ->
    ok final ->
    first_failure checks (value_of final) = None ->
    pending_input w
    = List.concat (map (fun a => keys_of (fst a)) attempts)
      ++ keys_of final ++ rest ->
    List.length attempts < bound ->
    exists w',
      validate_loop bound input_function checks w
      = Returned (value_of final) w' /\
      stdin w' = rest /\
      stdout w'
      = stdout w
        ++ List.concat
             (map (fun a => prefix ++ display_of (fst a) ++ endl) attempts)
        ++ prefix ++ display_of final ++ endl /\
      stderr w'
      = stderr w ++ List.concat (map (fun a => snd a ++ endl) attempts).
Proof.
  induction attempts as [|a attempts IH]; intros final rest w bound A K N P B;
    (destruct bound as [|bound]; [simpl in B; lia|]);
    cbn [validate_loop map List.concat app] in *.
  - destruct (@reads_item w final rest K P) as (w1 & R & S & F & O & E).
    rewrite R, N. eexists. split; [reflexivity|].
    unfold cout. cbn [stdin stdout stderr].
    rewrite O, E, <- !app_assoc, app_nil_r. auto.
  - inversion A as [|? ? [Ka Fa] A']; subst.
    rewrite <- app_assoc in P.
    destruct (@reads_item w (fst a) _ Ka P) as (w1 & R & S & F & O & E).
    rewrite R, Fa.
    destruct (@IH final rest (cerr (snd a ++ endl) (cout endl w1)) bound
                A' K N) as (w' & R' & S' & O' & E').
    + unfold pending_input, cerr, cout. cbn [stdin cin_fail].
      rewrite F. exact S.
    + simpl in B. lia.
    + exists w'. split; [exact R'|]. split; [exact S'|].
      rewrite O', E'. unfold cerr, cout. cbn [stdout stderr].
      rewrite O, E, <- !app_assoc. auto.
Qed.

Lemma validate_session :
  forall (attempts : list (item * cstring)) (final : item) (rest : cstring)
         (w : World) (bound : nat),
    Forall (fun a => ok (fst a) /\
                     first_failure checks (value_of (fst a)) = Some (snd a))
           attempts ->
    ok final ->
    first_failure checks (value_of final) = None ->
    pending_input w
    = List.concat (map (fun a => keys_of (fst a)) attempts)
      ++ keys_of final ++ rest ->
    List.length attempts < bound ->
    exists w',
      validate bound input_function checks w = Returned (value_of final) w' /\
      stdin w' = rest /\
      stdout w'
      = stdout w
        ++ List.concat
             (map (fun a => prefix ++ display_of (fst a) ++ endl) attempts)
        ++ prefix ++ display_of final ++ endl /\
      stderr w'
      = stderr w ++ List.concat (map (fun a => snd a ++ endl) attempts).
Proof.
  intros attempts final rest w bound A K N P B.
  destruct checks as [|check checks'] eqn:C.
  - destruct attempts as [|a attempts].
    + cbn [validate map List.concat app] in *.
      destruct (@reads_item w final rest K P) as (w1 & R & S & F & O & E).
      rewrite R. eexists. split; [reflexivity|].
      unfold cout. cbn [stdin stdout stderr].
      rewrite O, E, <- !app_assoc, app_nil_r. auto.
    + inversion A as [|? ? [_ Fa] _]; subst. discriminate.
  - unfold validate. rewrite <- C in *.
    apply validate_loop_session; assumption.
Qed.

End Session.

Lemma basic_input_reads_line (bound : nat) (mask : option ascii)
    (prefix : cstring) (w : World) (line rest : cstring) :
  plain line /\ List.length line < bound ->
  pending_input w = (line ++ [infuncs.NEWLINE]) ++ rest ->
  exists w',
    infuncs.basic_input bound mask (cout prefix w) = Returned line w' /\
    stdin w' = rest /\ cin_fail w' = false /\
    stdout w' = stdout w ++ prefix ++ echo_line mask line /\
    stderr w' = stderr w.
Proof.
  intros [P B] I. rewrite <- app_assoc in I. cbn [app] in I.
  unfold infuncs.basic_input.
  destruct (@loop_follows_keystrokes mask line [] (cout prefix w) rest bound
              I (plain_no_confirm P) B) as (w' & R & S & F & O & E).
  exists w'. rewrite R, (typed_plain P), O, (shown_plain mask P).
  unfold cout. cbn [stdout]. rewrite <- app_assoc. auto.
Qed.

Lemma cout_nothing (w : World) : cout [] w = w.
Proof. destruct w. unfold cout. cbn. rewrite app_nil_r. reflexivity. Qed.

Lemma instant_input_reads_key (prefix : cstring) (w : World) (c : ascii)
    (rest : cstring) :
  True ->
  pending_input w = [c] ++ rest ->
  exists w',
    infuncs.instant_input (cout prefix w) = Returned [c] w' /\
    stdin w' = rest /\ cin_fail w' = false /\
    stdout w' = stdout w ++ prefix ++ [toupper c] /\
    stderr w' = stderr w.
Proof.
  intros _ P. unfold infuncs.instant_input.
  destruct (getch_reads (cout prefix w)) as (C & S & F & O & E).
  change (pending_input (cout prefix w)) with (pending_input w) in *.
  rewrite P in *. cbn [app tl] in *.
  destruct (_infuncs.getch (cout prefix w)) as [k w1]. cbn [fst snd] in *.
  subst k. eexists. split; [reflexivity|].
  unfold cout in *. cbn [stdout stdin stderr cin_fail] in *.
  rewrite O, <- app_assoc. auto.
Qed.

Lemma script_snoc (lines : list cstring) (final rest : cstring) :
  script (lines ++ [final]) ++ rest
  = List.concat (map (fun line => line ++ [infuncs.NEWLINE]) lines)
    ++ (final ++ [infuncs.NEWLINE]) ++ rest.
Proof.
  unfold script. rewrite map_app, concat_app. cbn [map List.concat].
  rewrite app_nil_r, <- app_assoc. reflexivity.
Qed.

(** A session of [input] in a line style. *)
Lemma input_runs_line_session
    (style : Style) (prompt_once : bool) (message : cstring)
    (checks : list Check) (attempts : list (cstring * cstring))
    (final rest : cstring) (w : World) (bound : nat) :
  style <> Instant ->
  Forall (fun a => (plain (fst a) /\ List.length (fst a) < bound) /\
                   first_failure checks (fst a) = Some (snd a)) attempts ->
  plain final -> List.length final < bound ->
  first_failure checks final = None ->
  pending_input w = script (map fst attempts ++ [final]) ++ rest ->
  List.length attempts < bound ->
  exists w',
    input bound style prompt_once message checks w = Returned final w' /\
    stdin w' = rest /\
    stdout w'
    = stdout w
      ++ session_display prompt_once message
           (map (fun a => echo_line (style_mask style) (fst a)) attempts)
           (echo_line (style_mask style) final) /\
    stderr w' = stderr w ++ session_errors (map snd attempts).
Proof.
  intros NI A P L N I B.
  rewrite script_snoc, map_map in I.
  assert (F : match style with
              | Basic => infuncs.basic_input bound None
              | Masked => infuncs.basic_input bound (Some INPUT_MASK)
              | Instant => infuncs.instant_input
              end = infuncs.basic_input bound (style_mask style)).
  { destruct style; try reflexivity. congruence. }
  unfold input. rewrite F. unfold session_display, session_errors.
  rewrite !map_map.
  destruct prompt_once.
  - destruct (@validate_session cstring
                (fun line => line ++ [infuncs.NEWLINE]) (fun line => line)
                (echo_line (style_mask style))
                (fun line => plain line /\ List.length line < bound)
                (infuncs.basic_input bound (style_mask style)) [] checks)
      with (attempts := attempts) (final := final) (rest := rest)
           (w := cout message w) (bound := bound)
      as (w' & R & S & O & E); auto.
    + intros w0 a rest0 K Q.
      destruct (@basic_input_reads_line bound (style_mask style) [] w0 a
                  rest0 K Q) as (w1 & R1 & H1).
      rewrite cout_nothing in R1. eauto.
    + exists w'. split; [exact R|]. split; [exact S|].
      rewrite O, E. unfold cout. cbn [stdout stderr app].
      rewrite <- app_assoc. auto.
  - destruct (@validate_session cstring
                (fun line => line ++ [infuncs.NEWLINE]) (fun line => line)
                (echo_line (style_mask style))
                (fun line => plain line /\ List.length line < bound)
                (fun w0 => infuncs.basic_input bound (style_mask style)
                             (cout message w0)) message checks)
      with (attempts := attempts) (final := final) (rest := rest)
           (w := w) (bound := bound)
      as (w' & R & S & O & E); auto.
    + intros w0 a rest0 K Q. apply basic_input_reads_line; assumption.
    + exists w'. auto.
Qed.

(** X11. In a line style, when the user types lines of ordinary characters of
    which all but the last fail some check, [input] returns the last line
    and leaves the input right after its confirm keystroke. Standard error
    holds, in order, the message of the first failing check of each failed
    attempt, each followed by a newline. Standard output holds the echo of
    every line followed by a newline, with the message written once before
    the first attempt when [prompt_once] is set and before every attempt
    otherwise. *)
Theorem input_line_session
    (style : Style) (prompt_once : bool) (message : cstring)
    (checks : list Check) (attempts : list (cstring * cstring))
    (final rest : cstring) (w : World) (bound : nat) :
  style <> Instant ->
  Forall (fun a => (plain (fst a) /\ List.length (fst a) < bound) /\
                   first_failure checks (fst a) = Some (snd a)) attempts ->
  plain final -> List.length final < bound ->
  first_failure checks final = None ->
  pending_input w = script (map fst attempts ++ [final]) ++ rest ->
  List.length attempts < bound ->
  exists w',
    input bound style prompt_once message checks w = Returned final w' /\
    stdin w' = rest /\
    stdout w'
    = stdout w
      ++ session_display prompt_once message
           (map (fun a => echo_line (style_mask style) (fst a)) attempts)
           (echo_line (style_mask style) final) /\
    stderr w' = stderr w ++ session_errors (map snd attempts).
Proof. apply input_runs_line_session. Qed.

Lemma input_line_session_witness :
  Forall (fun a => (plain (fst a) /\ List.length (fst a) < 9) /\
                   first_failure [checks.range (T := int) 1%Z 10%Z] (fst a)
                   = Some (snd a))
         [(lit "x", INVALID_INPUT_PROMPT); (lit "42", INVALID_INPUT_PROMPT)] /\
  exists w',
    input 9 Masked false (lit "pin: ") [checks.range (T := int) 1%Z 10%Z]
      (console 35387 (script [lit "x"; lit "42"; lit "7"] ++ lit "rest"))
    = Returned (lit "7") w' /\
    stdin w' = lit "rest" /\
    stdout w' = lit "pin: *" ++ endl ++ lit "pin: **" ++ endl
                ++ lit "pin: *" ++ endl /\
    stderr w' = INVALID_INPUT_PROMPT ++ endl ++ INVALID_INPUT_PROMPT ++ endl.
Proof.
  assert (A : Forall (fun a => (plain (fst a) /\ List.length (fst a) < 9) /\
                   first_failure [checks.range (T := int) 1%Z 10%Z] (fst a)
                   = Some (snd a))
         [(lit "x", INVALID_INPUT_PROMPT); (lit "42", INVALID_INPUT_PROMPT)]).
  { repeat constructor. }
  split; [exact A|].
  apply (@input_line_session Masked false (lit "pin: ")
           [checks.range (T := int) 1%Z 10%Z]
           [(lit "x", INVALID_INPUT_PROMPT); (lit "42", INVALID_INPUT_PROMPT)]
           (lit "7") (lit "rest")
           (console 35387 (script [lit "x"; lit "42"; lit "7"] ++ lit "rest"))
           9);
    try exact A; try discriminate; try reflexivity; repeat constructor.
Defined.

(** X12. [get] is [input] with a colon and a space after the message, [ask] is
    [input] with a question mark and a newline after the question: in a
    line-style session the prompt displayed, once or before every attempt,
    is the message with that suffix. *)
Theorem get_and_ask_line_sessions
    (style : Style) (prompt_once : bool) (message : cstring)
    (checks : list Check) (attempts : list (cstring * cstring))
    (final rest : cstring) (w : World) (bound : nat) :
  style <> Instant ->
  Forall (fun a => (plain (fst a) /\ List.length (fst a) < bound) /\
                   first_failure checks (fst a) = Some (snd a)) attempts ->
  plain final -> List.length final < bound ->
  first_failure checks final = None ->
  pending_input w = script (map fst attempts ++ [final]) ++ rest ->
  List.length attempts < bound ->
  (exists w',
     get bound style prompt_once message checks w = Returned final w' /\
     stdin w' = rest /\
     stdout w'
     = stdout w
       ++ session_display prompt_once (message ++ lit ": ")
            (map (fun a => echo_line (style_mask style) (fst a)) attempts)
            (echo_line (style_mask style) final) /\
     stderr w' = stderr w ++ session_errors (map snd attempts)) /\
  (exists w',
     ask bound style prompt_once message checks w = Returned final w' /\
     stdin w' = rest /\
     stdout w'
     = stdout w
       ++ session_display prompt_once (message ++ lit "?" ++ endl)
            (map (fun a => echo_line (style_mask style) (fst a)) attempts)
            (echo_line (style_mask style) final) /\
     stderr w' = stderr w ++ session_errors (map snd attempts)).
Proof.
  intros NI A P L N I B. unfold get, ask.
  split; apply input_runs_line_session; assumption.
Qed.

Lemma get_and_ask_line_sessions_witness :
  exists w',
    ask 9 Basic true (lit "Continue") [checks.is_ false [lit "yes"; lit "no"]]
      (console 35387 (script [lit "maybe"; lit "No"]))
    = Returned (lit "No") w' /\
    stdin w' = [] /\
    stdout w' = lit "Continue?" ++ endl ++ lit "maybe" ++ endl
                ++ lit "No" ++ endl /\
    stderr w' = INVALID_INPUT_PROMPT ++ endl.
Proof.
  apply (proj2 (@get_and_ask_line_sessions Basic true (lit "Continue")
           [checks.is_ false [lit "yes"; lit "no"]]
           [(lit "maybe", INVALID_INPUT_PROMPT)]
           (lit "No") []
           (console 35387 (script [lit "maybe"; lit "No"]))
           9 ltac:(discriminate) ltac:(repeat constructor)
           ltac:(repeat constructor) ltac:(repeat constructor)
           eq_refl eq_refl ltac:(repeat constructor))).
Defined.

(** X13. A session of [input] in the Instant style: every keystroke is an
    attempt of its own. [input] returns the first key that passes the
    checks, as a one-character string; each key is displayed upper-cased
    and followed by a newline, and each failed key is reported on standard
    error. *)
Theorem input_instant_session
    (prompt_once : bool) (message : cstring) (checks : list Check)
    (attempts : list (ascii * cstring)) (final : ascii) (rest : cstring)
    (w : World) (bound : nat) :
  Forall (fun a => first_failure checks [fst a] = Some (snd a)) attempts ->
  first_failure checks [final] = None ->
  pending_input w = map fst attempts ++ final :: rest ->
  List.length attempts < bound ->
  exists w',
    input bound Instant prompt_once message checks w = Returned [final] w' /\
    stdin w' = rest /\
    stdout w'
    = stdout w
      ++ session_display prompt_once message
           (map (fun a => [toupper (fst a)]) attempts) [toupper final] /\
    stderr w' = stderr w ++ session_errors (map snd attempts).
Proof.
  intros A N I B.
  assert (A' : Forall (fun a => True /\
                         first_failure checks [fst a] = Some (snd a))
                      attempts).
  { rewrite Forall_forall in *. auto. }
  assert (I' : pending_input w
               = List.concat (map (fun a => [fst a]) attempts)
                 ++ [final] ++ rest).
  { rewrite I. f_equal. clear. induction attempts as [|a l IH]; simpl;
      [reflexivity | rewrite IH; reflexivity]. }
  unfold input, session_display, session_errors. rewrite !map_map.
  destruct prompt_once.
  - destruct (@validate_session ascii
                (fun c => [c]) (fun c => [c]) (fun c => [toupper c])
                (fun _ => True) infuncs.instant_input [] checks)
      with (attempts := attempts) (final := final) (rest := rest)
           (w := cout message w) (bound := bound)
      as (w' & R & S & O & E); auto.
    + intros w0 a rest0 K Q.
      destruct (@instant_input_reads_key [] w0 a rest0 K Q)
        as (w1 & R1 & H1).
      rewrite cout_nothing in R1. eauto.
    + exists w'. split; [exact R|]. split; [exact S|].
      rewrite O, E. unfold cout. cbn [stdout stderr app].
      rewrite <- app_assoc. auto.
  - destruct (@validate_session ascii
                (fun c => [c]) (fun c => [c]) (fun c => [toupper c])
                (fun _ => True)
                (fun w0 => infuncs.instant_input (cout message w0))
                message checks)
      with (attempts := attempts) (final := final) (rest := rest)
           (w := w) (bound := bound)
      as (w' & R & S & O & E); auto.
    + intros w0 a rest0 K Q. apply instant_input_reads_key; assumption.
    + exists w'. auto.
Qed.

Lemma input_instant_session_witness :
  exists w',
    input 9 Instant true (lit "Proceed? [y/n] ")
      [checks.is_ false [lit "y"; lit "n"]]
      (console 35387 (lit "qn"))
    = Returned (lit "n") w' /\
    stdin w' = [] /\
    stdout w' = lit "Proceed? [y/n] Q" ++ endl ++ lit "N" ++ endl /\
    stderr w' = INVALID_INPUT_PROMPT ++ endl.
Proof.
  apply (@input_instant_session true (lit "Proceed? [y/n] ")
           [checks.is_ false [lit "y"; lit "n"]]
           [("q"%char, INVALID_INPUT_PROMPT)] "n"%char []
           (console 35387 (lit "qn")) 9
           ltac:(repeat constructor) eq_refl eq_refl
           ltac:(repeat constructor)).
Defined.

(** ** Numerals *)

Lemma accepts_rep (a : regex.atom) (lo : N) (hi : option N)
    (p : regex.pattern) (b : bool) (s : cstring) :
  regex.accepts (regex.Rep a lo hi :: p) b s = true <->
  exists run r,
    s = run ++ r /\
    forallb (regex.admits a) run = true /\
    within lo hi (List.length run) /\
    regex.accepts p (b && (List.length r =? List.length s)) r = true.
Proof.
  cbn [regex.accepts]. rewrite existsb_exists. split.
  - intros (r & I & A). apply tails_spec in I.
    destruct I as (run & E & F & W). exists run, r. auto.
  - intros (run & r & E & F & W & A). exists r. split; [|exact A].
    apply tails_spec. exists run. auto.
Qed.

Lemma accepts_eol (b : bool) (s : cstring) :
  regex.accepts [regex.Eol] b s = true <-> s = [].
Proof. destruct s; cbn; split; congruence. Qed.

Lemma digit_class_run (run : cstring) :
  forallb (regex.admits
             (regex.Bracket false [regex.Span "0" "9"])) run = true <->
  Forall (fun c => isdigit c = true) run.
Proof.
  rewrite forallb_forall, Forall_forall.
  split; intros H c I; specialize (H c I); cbn in *;
    unfold isdigit in *; rewrite ?orb_false_r in *; exact H.
Qed.

Lemma optional_char_run (x : ascii) (run : cstring) :
  forallb (regex.admits (regex.Chr x)) run = true /\
  within 0 (Some 1%N) (List.length run) <->
  run = [] \/ run = [x].
Proof.
  unfold within. split.
  - intros [F [_ U]]. destruct run as [|c run]; [left; reflexivity|].
    destruct run as [|d run]; [|cbn [List.length] in U; lia].
    cbn in F. rewrite andb_true_r in F. apply Ascii.eqb_eq in F.
    subst. right; reflexivity.
  - intros [->| ->]; cbn; rewrite ?Ascii.eqb_refl; repeat split; lia.
Qed.

Lemma one_char_run (x : ascii) (run : cstring) :
  forallb (regex.admits (regex.Chr x)) run = true /\
  within 1 (Some 1%N) (List.length run) <->
  run = [x].
Proof.
  unfold within. split.
  - intros [F [L U]]. destruct run as [|c run]; [cbn in L; lia|].
    destruct run as [|d run]; [|cbn [List.length] in U; lia].
    cbn in F. rewrite andb_true_r in F. apply Ascii.eqb_eq in F.
    subst. reflexivity.
  - intros ->; cbn; rewrite ?Ascii.eqb_refl; repeat split; lia.
Qed.

Lemma nonempty_run (run : cstring) :
  within 1 None (List.length run) <-> run <> [].
Proof.
  unfold within. destruct run; cbn [List.length]; split.
  - intros [L _]. cbn in L. lia.
  - congruence.
  - discriminate.
  - intros _. split; [lia | exact I].
Qed.

Lemma sign_cases (run : cstring) :
  run = [] \/ run = ["-"%char] <-> exists negative, run = sign_of negative.
Proof.
  split.
  - intros [->| ->]; [exists false | exists true]; reflexivity.
  - intros [[] ->]; auto.
Qed.

Lemma numeric_pattern (T : Type) (H : Arithmetic T) :
  regex.compile (checks.numeric_expression T)
  = regex.Ok
      (regex.Bol ::
       (if is_floating_point || is_signed
        then [regex.Rep (regex.Chr "-") 0 (Some 1%N)] else []) ++
       regex.Rep (regex.Bracket false [regex.Span "0" "9"]) 1 None ::
       (if is_floating_point
        then [regex.Rep (regex.Chr ".") 1 (Some 1%N);
              regex.Rep (regex.Bracket false [regex.Span "0" "9"]) 1 None]
        else []) ++
       [regex.Eol]).
Proof.
  unfold checks.numeric_expression.
  destruct H as [fp sg lt ex]. cbn [is_floating_point is_signed].
  destruct fp; [|destruct sg]; vm_compute; reflexivity.
Qed.

Lemma numeric_accepts_match (T : Type) (H : Arithmetic T) (s : cstring)
    (p : regex.pattern) :
  regex.compile (checks.numeric_expression T) = regex.Ok p ->
  (numeric_accepts T s <-> regex.regex_match s p = true).
Proof.
  intros C. unfold numeric_accepts, checks.numeric, accepted. rewrite C.
  cbn [regex.map_try regex.bind]. unfold checks.matches_regex. split.
  - intros (nc & E & A). inversion E; subst nc.
    destruct (regex.regex_match s p); [reflexivity | discriminate].
  - intros M. eexists. split; [reflexivity|]. cbv beta. rewrite M.
    reflexivity.
Qed.

Lemma signed_numeral_match (s : cstring) :
  regex.regex_match s
    [regex.Bol; regex.Rep (regex.Chr "-") 0 (Some 1%N);
     regex.Rep (regex.Bracket false [regex.Span "0" "9"]) 1 None;
     regex.Eol] = true <->
  exists negative ds, s = sign_of negative ++ ds /\ digits ds.
Proof.
  unfold regex.regex_match, digits.
  change (regex.accepts (regex.Bol :: ?p) true s)
    with (regex.accepts p true s).
  cbn [regex.accepts andb]. fold regex.accepts.
  change (existsb _ (regex.tails (regex.Chr "-") 0 (Some 1%N) s))
    with (regex.accepts
            [regex.Rep (regex.Chr "-") 0 (Some 1%N);
             regex.Rep (regex.Bracket false [regex.Span "0" "9"]) 1 None;
             regex.Eol] true s).
  rewrite accepts_rep. split.
  - intros (run & r & -> & F & W & A).
    apply accepts_rep in A. destruct A as (ds & r2 & -> & D & N & E).
    apply accepts_eol in E. subst r2. rewrite app_nil_r.
    apply digit_class_run in D. apply nonempty_run in N.
    assert (S : run = [] \/ run = ["-"%char])
      by (apply optional_char_run; auto).
    apply sign_cases in S. destruct S as [negative ->]. eauto.
  - intros (negative & ds & -> & N & D).
    exists (sign_of negative), ds. split; [reflexivity|].
    assert (S : sign_of negative = [] \/ sign_of negative = ["-"%char])
      by (apply sign_cases; eauto).
    apply optional_char_run in S. destruct S as [F W].
    split; [exact F|]. split; [exact W|].
    apply accepts_rep. exists ds, []. rewrite app_nil_r.
    split; [reflexivity|]. split; [apply digit_class_run; exact D|].
    split; [apply nonempty_run; exact N | reflexivity].
Qed.

Lemma decimal_fraction_match (s : cstring) :
  regex.regex_match s
    [regex.Bol; regex.Rep (regex.Chr "-") 0 (Some 1%N);
     regex.Rep (regex.Bracket false [regex.Span "0" "9"]) 1 None;
     regex.Rep (regex.Chr ".") 1 (Some 1%N);
     regex.Rep (regex.Bracket false [regex.Span "0" "9"]) 1 None;
     regex.Eol] = true <->
  exists negative whole fraction,
    s = sign_of negative ++ whole ++ "."%char :: fraction /\
    digits whole /\ digits fraction.
Proof.
  unfold regex.regex_match, digits.
  change (regex.accepts (regex.Bol :: ?p) true s)
    with (regex.accepts p true s).
  rewrite accepts_rep. split.
  - intros (run & r & -> & F & W & A).
    apply accepts_rep in A. destruct A as (whole & r2 & -> & D & N & A).
    apply accepts_rep in A. destruct A as (dot & r3 & -> & Fd & Wd & A).
    apply accepts_rep in A. destruct A as (fraction & r4 & -> & D' & N' & E).
    apply accepts_eol in E. subst r4. rewrite app_nil_r.
    apply digit_class_run in D, D'. apply nonempty_run in N, N'.
    assert (S : run = [] \/ run = ["-"%char])
      by (apply optional_char_run; auto).
    apply sign_cases in S. destruct S as [negative ->].
    assert (O : dot = ["."%char]) by (apply one_char_run; auto).
    subst dot. exists negative, whole, fraction. auto.
  - intros (negative & whole & fraction & -> & [N D] & [N' D']).
    exists (sign_of negative), (whole ++ "."%char :: fraction).
    split; [reflexivity|].
    assert (S : sign_of negative = [] \/ sign_of negative = ["-"%char])
      by (apply sign_cases; eauto).
    apply optional_char_run in S. destruct S as [F W].
    split; [exact F|]. split; [exact W|].
    apply accepts_rep. exists whole, ("."%char :: fraction).
    split; [reflexivity|]. split; [apply digit_class_run; exact D|].
    split; [apply nonempty_run; exact N|].
    apply accepts_rep. exists ["."%char], fraction.
    split; [reflexivity|].
    destruct (proj2 (one_char_run "." ["."%char]) eq_refl) as [Fd Wd].
    split; [exact Fd|]. split; [exact Wd|].
    apply accepts_rep. exists fraction, []. rewrite app_nil_r.
    split; [reflexivity|]. split; [apply digit_class_run; exact D'|].
    split; [apply nonempty_run; exact N' | reflexivity].
Qed.

Lemma unsigned_numeral_match (s : cstring) :
  regex.regex_match s
    [regex.Bol;
     regex.Rep (regex.Bracket false [regex.Span "0" "9"]) 1 None;
     regex.Eol] = true <->
  digits s.
Proof.
  rewrite match_anchored_run, digit_class_run, nonempty_run.
  unfold digits. tauto.
Qed.

(** X14. What [numeric<T>] accepts depends on the two traits of [T] only: for a
    floating kind, an optional minus sign, digits, a dot and digits; for a
    signed integral kind, an optional minus sign and digits; for an
    unsigned kind, digits alone. The runs of digits are never empty, and no
    plus sign, exponent or surrounding space is admitted. *)
Theorem numeric_accepts_numerals (T : Type) (H : Arithmetic T) (s : cstring) :
  numeric_accepts T s <->
  if is_floating_point then
    exists negative whole fraction,
      s = sign_of negative ++ whole ++ "."%char :: fraction /\
      digits whole /\ digits fraction
  else if is_signed then
    exists negative ds, s = sign_of negative ++ ds /\ digits ds
  else digits s.
Proof.
  rewrite (@numeric_accepts_match T H s _ (@numeric_pattern T H)).
  destruct H as [fp sg lt ex]. cbn [is_floating_point is_signed].
  destruct fp; [|destruct sg]; cbn [orb app].
  - apply decimal_fraction_match.
  - apply signed_numeral_match.
  - apply unsigned_numeral_match.
Qed.

(** ** Extraction of an int *)

Lemma digit_not_sign_or_space (c : ascii) :
  isdigit c = true ->
  isspace c = false /\ (c =? "-")%char = false /\ (c =? "+")%char = false.
Proof.
  destruct c as [[] [] [] [] [] [] [] []]; intros D;
    vm_compute in D; try discriminate; repeat split.
Qed.

Lemma extract_int_numeral (negative : bool) (ds : cstring) :
  digits ds ->
  extract_int (sign_of negative ++ ds)
  = if ((INT_MIN <=? signed_value negative ds)
        && (signed_value negative ds <=? INT_MAX))%Z
    then Some (signed_value negative ds) else None.
Proof.
  intros [N D]. destruct ds as [|d ds]; [congruence|].
  inversion D as [|? ? Dd _]; subst.
  destruct (@digit_not_sign_or_space d Dd) as (Sp & Mi & Pl).
  unfold extract_int, signed_value, decimal.
  destruct negative; cbn [sign_of app skipws].
  - change (isspace "-") with false. cbv iota.
    change ("-" =? "-")%char with true. cbv iota. rewrite Dd. reflexivity.
  - rewrite Sp, Mi, Pl, Dd. reflexivity.
Qed.

Lemma number_all_digits (ds : cstring) :
  Forall (fun c => isdigit c = true) ds ->
  forall acc,
    number acc ds
    = (fold_left (fun acc c => 10 * acc + digit_value c)%N ds acc, []).
Proof.
  induction 1 as [|c ds D _ IH]; intros acc; simpl.
  - reflexivity.
  - rewrite D. apply IH.
Qed.

(** The value read back from the numeral of [n] is [n]. *)
Lemma decimal_to_string (n : N) : decimal (to_string n) = n.
Proof.
  unfold decimal.
  rewrite number_all_digits by apply to_string_digits.
  cbn [fst]. unfold to_string.
  rewrite <- fold_left_rev_right, rev_involutive.
  apply digits_lsf_value.
  rewrite Nat2N.inj_succ, N2Nat.id.
  destruct n as [|p]; [reflexivity|].
  apply N.log2_spec. reflexivity.
Qed.

(** X15. [range<int>(min, max)] accepts exactly the decimal numerals, with an
    optional minus sign, whose value fits an int and lies between [min] and
    [max]. A numeral whose value does not fit an int is rejected whatever
    the bounds, also with the default bounds INT_MIN and INT_MAX. *)
Theorem range_int_accepts_numerals_in_range
    (mininimum maximum : int) (s : cstring) :
  (accepted s (checks.range mininimum maximum) <->
   exists negative ds,
     s = sign_of negative ++ ds /\ digits ds /\
     (INT_MIN <= signed_value negative ds <= INT_MAX)%Z /\
     (mininimum <= signed_value negative ds <= maximum)%Z) /\
  (forall negative ds,
     s = sign_of negative ++ ds -> digits ds ->
     ~ (INT_MIN <= signed_value negative ds <= INT_MAX)%Z ->
     rejected s (checks.range mininimum maximum)).
Proof.
  destruct (@range_unfold int int_arithmetic mininimum maximum s)
    as (nc & E & M & R).
  assert (NA : nc s = Accept <->
               exists negative ds, s = sign_of negative ++ ds /\ digits ds).
  { rewrite <- (signed_numeral_match s).
    rewrite <- (@numeric_accepts_match int int_arithmetic s _
                 (@numeric_pattern int int_arithmetic)).
    unfold numeric_accepts, accepted. split.
    - intros A. exists nc. auto.
    - intros (nc' & E' & A). rewrite E in E'. inversion E'. subst. exact A. }
  change (@extract int int_arithmetic) with extract_int in R.
  change (@less int int_arithmetic) with Z.ltb in R.
  split.
  - unfold accepted. rewrite R. split.
    + intros A. destruct (nc s) eqn:Q; [|discriminate].
      destruct (proj1 NA eq_refl) as (negative & ds & -> & D).
      rewrite (@extract_int_numeral negative ds D) in A.
      destruct ((INT_MIN <=? signed_value negative ds)
                && (signed_value negative ds <=? INT_MAX))%Z eqn:B;
        [|discriminate].
      destruct (Z.ltb_spec (signed_value negative ds) mininimum);
        [discriminate|].
      destruct (Z.ltb_spec maximum (signed_value negative ds));
        [discriminate|].
      apply andb_true_iff in B. destruct B as [B1 B2].
      apply Z.leb_le in B1, B2.
      exists negative, ds. split; [reflexivity|]. split; [exact D|].
      split; split; assumption.
    + intros (negative & ds & -> & D & [B1 B2] & [L1 L2]).
      rewrite (proj2 NA) by eauto.
      rewrite (@extract_int_numeral negative ds D).
      apply Z.leb_le in B1, B2. rewrite B1, B2. cbn [andb].
      destruct (Z.ltb_spec (signed_value negative ds) mininimum); [lia|].
      destruct (Z.ltb_spec maximum (signed_value negative ds)); [lia|].
      reflexivity.
  - intros negative ds -> D B. unfold rejected. rewrite R.
    rewrite (proj2 NA) by eauto.
    rewrite (@extract_int_numeral negative ds D).
    destruct ((INT_MIN <=? signed_value negative ds)
              && (signed_value negative ds <=? INT_MAX))%Z eqn:Q.
    + apply andb_true_iff in Q. destruct Q as [B1 B2].
      apply Z.leb_le in B1, B2. exfalso. apply B. auto.
    + eauto.
Qed.

Example range_int_overflow :
  rejected (lit "2147483648") (checks.range INT_MIN INT_MAX) /\
  accepted (lit "2147483647") (checks.range INT_MIN INT_MAX) /\
  accepted (lit "-2147483648") (checks.range INT_MIN INT_MAX) /\
  accepted (lit "007") (checks.range (T := int) 7%Z 7%Z) /\
  decimal (lit "007") = 7%N.
Proof.
  unfold accepted, rejected.
  repeat split; try (vm_compute; reflexivity).
  eexists; vm_compute; reflexivity.
Qed.

(** ** Ranges and complements in [consists_of] *)

Lemma anchored_bracket_throw (body : cstring) (f : regex.failure)
    (bound : nat) :
  regex.bracket body = regex.Throw f ->
  regex.terms (S (S bound)) ("^"%char :: "["%char :: body) = regex.Throw f.
Proof.
  intros B.
  cbn -[regex.bracket regex.quantifier].
  unfold regex.single. cbn -[regex.bracket regex.quantifier].
  rewrite B. reflexivity.
Qed.

Lemma class_atoms_range (lo hi : ascii) (rest : cstring) :
  class_syntax lo = false -> class_syntax hi = false ->
  (code lo < 128)%N -> (code hi < 128)%N ->
  regex.class_atoms (lo :: "-"%char :: hi :: "]"%char :: rest)
  = if (code hi <? code lo)%N then regex.Throw regex.error_range
    else regex.Ok ([regex.Span lo hi], rest).
Proof.
  intros L H Al Ah.
  apply class_syntax_false in L. destruct L as (L1 & L2 & L3 & L4 & L5).
  apply class_syntax_false in H. destruct H as (H1 & H2 & H3 & H4 & H5).
  cbn [regex.class_atoms]. rewrite L1, L2, L5.
  change ("-" =? "-")%char with true. cbv iota. rewrite H2.
  unfold regex.one_of. cbn [lit list_ascii_of_string existsb].
  rewrite H1, H5. cbn [orb].
  replace (127 <? code lo)%N with false by (symmetry; apply N.ltb_ge; lia).
  replace (127 <? code hi)%N with false by (symmetry; apply N.ltb_ge; lia).
  cbn [orb].
  destruct (code hi <? code lo)%N; [reflexivity|].
  change ("]" =? "]")%char with true. reflexivity.
Qed.

Lemma compile_consists_of (allowed : cstring) :
  regex.compile (lit "^[" ++ allowed ++ lit "]+$")
  = regex.terms (S (S (S (S (List.length allowed + 2)))))
      ("^"%char :: "["%char :: allowed ++ "]"%char :: ["+"%char; "$"%char]).
Proof.
  unfold regex.compile.
  change (lit "^[" ++ allowed ++ lit "]+$")
    with ("^"%char :: "["%char :: allowed ++ "]"%char :: ["+"%char; "$"%char]).
  cbn [List.length]. rewrite length_app. cbn [List.length].
  replace (List.length allowed + 3) with (S (List.length allowed + 2)) by lia.
  reflexivity.
Qed.

Lemma accepted_anchored_plus (a : regex.atom) (s : cstring) :
  accepted s (checks.matches_regex
                [regex.Bol; regex.Rep a 1 None; regex.Eol]) <->
  s <> [] /\ Forall (fun c => regex.admits a c = true) s.
Proof.
  assert (Q : forallb (regex.admits a) s = true <->
              Forall (fun c => regex.admits a c = true) s).
  { rewrite forallb_forall, Forall_forall. tauto. }
  unfold accepted, checks.matches_regex.
  rewrite <- nonempty_run, <- Q.
  destruct (regex.regex_match s _) eqn:M; cbn [negb].
  - apply match_anchored_run in M. tauto.
  - split; [discriminate|]. intros [W F]. exfalso.
    assert (M' : regex.regex_match s
                   [regex.Bol; regex.Rep a 1 None; regex.Eol] = true)
      by (apply match_anchored_run; auto).
    congruence.
Qed.

(** X16. [consists_of] splices its argument into a bracket expression. A
    low-dash-high argument of two ASCII characters is therefore a range:
    the check accepts the non-empty candidates whose characters all lie
    between the two, and when the second character is below the first no
    check is built at all (std::regex_error, error_range). An argument that
    begins with a caret is a complement: the check accepts the non-empty
    candidates none of whose characters occurs after the caret. *)
Theorem consists_of_ranges_and_complements :
  (forall lo hi s,
     class_syntax lo = false -> class_syntax hi = false ->
     (code lo <= code hi < 128)%N ->
     exists check,
       checks.consists_of [lo; "-"%char; hi] = regex.Ok check /\
       (accepted s check <->
        s <> [] /\ Forall (fun c => between lo hi c = true) s)) /\
  (forall lo hi,
     class_syntax lo = false -> class_syntax hi = false ->
     (code hi < code lo < 128)%N ->
     checks.consists_of [lo; "-"%char; hi] = regex.Throw regex.error_range) /\
  (forall excluded s,
     Forall (fun c => class_syntax c = false) excluded ->
     exists check,
       checks.consists_of ("^"%char :: excluded) = regex.Ok check /\
       (accepted s check <->
        s <> [] /\ Forall (fun c => ~ In c excluded) s)).
Proof.
  split; [|split].
  - intros lo hi s L H [B A]. unfold checks.consists_of.
    rewrite compile_consists_of.
    rewrite (@anchored_bracket_plus [lo; "-"%char; hi]
               (regex.Bracket false [regex.Span lo hi])).
    + eexists. split; [reflexivity|]. rewrite accepted_anchored_plus.
      cbn [regex.admits xorb existsb regex.member].
      split; intros [N F]; (split; [exact N|]);
        rewrite Forall_forall in *; intros c I; specialize (F c I);
        rewrite ?orb_false_r in *; exact F.
    + unfold regex.bracket. cbn [app].
      apply class_syntax_false in L as Lq. destruct Lq as (_ & _ & L3 & _).
      rewrite L3, (@class_atoms_range lo hi _ L H) by lia.
      replace (code hi <? code lo)%N with false
        by (symmetry; apply N.ltb_ge; exact B).
      reflexivity.
  - intros lo hi L H [B A]. unfold checks.consists_of.
    rewrite compile_consists_of.
    rewrite (@anchored_bracket_throw _ regex.error_range); [reflexivity|].
    unfold regex.bracket. cbn [app].
    apply class_syntax_false in L as Lq. destruct Lq as (_ & _ & L3 & _).
    rewrite L3, (@class_atoms_range lo hi _ L H) by lia.
    replace (code hi <? code lo)%N with true
      by (symmetry; apply N.ltb_lt; exact B).
    reflexivity.
  - intros excluded s P. unfold checks.consists_of.
    rewrite compile_consists_of.
    rewrite (@anchored_bracket_plus ("^"%char :: excluded)
               (regex.Bracket true (map regex.One excluded))).
    + eexists. split; [reflexivity|]. rewrite accepted_anchored_plus.
      assert (A : forall c,
                 regex.admits (regex.Bracket true (map regex.One excluded)) c
                 = true <-> ~ In c excluded).
      { intros c. rewrite <- (admits_plain_class excluded c).
        cbn [regex.admits xorb].
        destruct (existsb _ _); cbn; split; congruence. }
      split; intros [N F]; (split; [exact N|]);
        rewrite Forall_forall in *; intros c I; apply A; auto.
    + unfold regex.bracket. cbn [app].
      change ("^" =? "^")%char with true. cbv iota.
      rewrite (class_atoms_plain ["+"%char; "$"%char] P). reflexivity.
Qed.

Example consists_of_lower_case :
  exists check,
    checks.consists_of (lit "a-z") = regex.Ok check /\
    accepted (lit "hello") check /\ rejected (lit "Hello") check.
Proof.
  exhibit_check. split; run_check.
Qed.

(** ** The terminal after a read cycle *)

Lemma keystroke_terminal (mask : option ascii) (user_input : cstring)
    (w : World) :
  terminal (snd (infuncs.keystroke mask user_input w))
  = terminal (snd (_infuncs.getch w)).
Proof.
  unfold infuncs.keystroke.
  destruct (_infuncs.getch w) as [c w1]. cbn [snd].
  destruct (c =? infuncs.BACKSPACE)%char.
  - destruct user_input; reflexivity.
  - destruct (negb (c =? infuncs.NEWLINE)%char); reflexivity.
Qed.

Lemma canonical_echo_stable (f : Z) :
  Z.lor (Z.lor f (Z.lor ICANON ECHO)) (Z.lor ICANON ECHO)
  = Z.lor f (Z.lor ICANON ECHO).
Proof. rewrite <- Z.lor_assoc, Z.lor_diag. reflexivity. Qed.

Lemma canonical_echo_range (f : Z) :
  (0 <= f < 2 ^ 32)%Z -> (0 <= Z.lor f (Z.lor ICANON ECHO) < 2 ^ 32)%Z.
Proof.
  intros R. rewrite <- (lflag_after_getch R). unfold tcflag_t at 1.
  apply Z.mod_pos_bound. lia.
Qed.

Lemma getch_terminal_in_range (w : World) :
  (0 <= c_lflag (terminal w) < 2 ^ 32)%Z ->
  terminal (snd (_infuncs.getch w))
  = with_lflag (terminal w)
               (Z.lor (c_lflag (terminal w)) (Z.lor ICANON ECHO)).
Proof.
  intros R. rewrite getch_terminal, (lflag_after_getch R). reflexivity.
Qed.

Lemma loop_terminal (mask : option ascii) (t : termios) :
  (0 <= c_lflag t < 2 ^ 32)%Z ->
  forall bound user_input w,
    terminal w = t \/
    terminal w = with_lflag t (Z.lor (c_lflag t) (Z.lor ICANON ECHO)) ->
    bound <> 0 ->
    terminal (world_of (infuncs.basic_input_loop bound mask user_input w))
    = with_lflag t (Z.lor (c_lflag t) (Z.lor ICANON ECHO)).
Proof.
  intros R.
  induction bound as [|bound IH]; intros user_input w T B; [congruence|].
  cbn [infuncs.basic_input_loop].
  pose proof (keystroke_terminal mask user_input w) as K.
  assert (G : terminal (snd (_infuncs.getch w))
              = with_lflag t (Z.lor (c_lflag t) (Z.lor ICANON ECHO))).
  { destruct T as [T|T].
    - rewrite getch_terminal_in_range; rewrite T; [reflexivity | exact R].
    - rewrite getch_terminal_in_range; rewrite T; cbn [c_lflag with_lflag].
      + rewrite canonical_echo_stable. reflexivity.
      + apply canonical_echo_range. exact R. }
  destruct (infuncs.keystroke mask user_input w) as [[c u] w1].
  cbn [snd] in K. rewrite G in K.
  destruct (negb (c =? infuncs.NEWLINE)%char).
  - destruct bound as [|bound'].
    + cbn. exact K.
    + apply IH; [right; exact K | discriminate].
  - cbn. exact K.
Qed.

(** X10. However many keystrokes a read cycle of [basic_input] takes, it leaves
    the terminal as a single [getch] does: ICANON and ECHO set, every other
    attribute as on entry. *)
Theorem basic_input_leaves_canonical_echo
    (bound : nat) (mask : option ascii) (w : World) (s : cstring) (w' : World) :
  (0 <= c_lflag (terminal w) < 2 ^ 32)%Z ->
  infuncs.basic_input bound mask w = Returned s w' ->
  terminal w'
  = with_lflag (terminal w)
               (Z.lor (c_lflag (terminal w)) (Z.lor ICANON ECHO)) /\
  terminal w' = terminal (snd (_infuncs.getch w)).
Proof.
  intros R E. unfold infuncs.basic_input in E.
  assert (B : bound <> 0) by (intros ->; discriminate).
  pose proof (@loop_terminal mask (terminal w) R bound [] w
                (or_introl eq_refl) B) as T.
  rewrite E in T. cbn [world_of] in T.
  split; [exact T|]. rewrite T. symmetry.
  apply getch_terminal_in_range. exact R.
Qed.

Lemma basic_input_leaves_canonical_echo_witness :
  (0 <= c_lflag (terminal (console 0 (lit "ab" ++ [infuncs.NEWLINE])))
   < 2 ^ 32)%Z /\
  c_lflag (terminal (world_of
     (infuncs.basic_input 9 None (console 0 (lit "ab" ++ [infuncs.NEWLINE])))))
  = 10%Z.
Proof.
  assert (R : (0 <= c_lflag (terminal
                 (console 0 (lit "ab" ++ [infuncs.NEWLINE]))) < 2 ^ 32)%Z).
  { vm_compute. split; [discriminate | reflexivity]. }
  split; [exact R|].
  assert (E : infuncs.basic_input 9 None
                (console 0 (lit "ab" ++ [infuncs.NEWLINE]))
              = Returned (lit "ab")
                  (world_of (infuncs.basic_input 9 None
                     (console 0 (lit "ab" ++ [infuncs.NEWLINE]))))).
  { vm_compute. reflexivity. }
  rewrite (proj1 (@basic_input_leaves_canonical_echo 9 None _ _ _ R E)).
  reflexivity.
Defined.
